(** * yahooquery_to_mongodb: pagination, chunking and bulk upsert

    A shallow embedding of [src/yahooquery_to_mongodb.py].  Python integers
    are [Z], Python lists are [list], dictionaries are [gmap]; the three
    remote collaborators (screener endpoint, detail endpoint, document
    store) and the wall clock are explicit oracles and explicit state. *)

From stdpp Require Import gmap strings list fin_maps.
From Stdlib Require Import ZArith Lia Ascii.

Open Scope Z_scope.

(** ** Python primitives used by the script *)

Module Py.

(** Exceptions that the modelled code paths can raise. *)
Inductive Exn : Type :=
| ValueError          (* range() arg 3 must not be zero *)
| ZeroDivisionError   (* len(symbols) / 0 *)
| TransportError      (* a remote request failed *)
| InvalidOperation    (* bulk_write called with no operations *)
| PersistenceError    (* the bulk_write call failed as a whole *)
| BulkWriteError (n_errors : nat).

(** The result of running a piece of Python: a value, an exception, or
    [Diverged] when the loop budget of the model ran out. *)
Inductive Outcome (A : Type) : Type :=
| Ret (a : A)
| Raise (e : Exn)
| Diverged.
Arguments Ret {A} a.
Arguments Raise {A} e.
Arguments Diverged {A}.

(** [len(range(start, stop, step))] as CPython computes it. *)
Definition range_len (start stop step : Z) : Z :=
  if 0 <? step then
    (if start <? stop then (stop - start - 1) / step + 1 else 0)
  else if step <? 0 then
    (if stop <? start then (start - stop - 1) / (- step) + 1 else 0)
  else 0.

(** [range(start, stop, step)]; a zero step raises [ValueError]. *)
Definition range (start stop step : Z) : Outcome (list Z) :=
  if step =? 0 then Raise ValueError
  else Ret (map (λ i : nat, start + Z.of_nat i * step)
                (seq 0 (Z.to_nat (range_len start stop step)))).

(** Normalisation of one slice bound: negative bounds count from the
    end, and the result is clamped to [0, len]. *)
Definition clamp (len i : Z) : Z :=
  let j := if i <? 0 then i + len else i in
  Z.max 0 (Z.min len j).

(** [l[lo:hi]] *)
Definition slice {A} (l : list A) (lo hi : Z) : list A :=
  let n := Z.of_nat (length l) in
  let a := clamp n lo in
  let b := clamp n hi in
  take (Z.to_nat (b - a)) (drop (Z.to_nat a) l).

(** [l[:hi]] *)
Definition slice_to {A} (l : list A) (hi : Z) : list A :=
  take (Z.to_nat (clamp (Z.of_nat (length l)) hi)) l.

Definition len {A} (l : list A) : Z := Z.of_nat (length l).

End Py.
Import Py.

(** ** [chunked] (lines 29-31) *)

(** for start in range(0, len(items), size): yield items[start : start + size] *)
Definition chunked (items : list string) (size : Z) : Outcome (list (list string)) :=
  match range 0 (len items) size with
  | Ret starts => Ret (map (λ start, slice items start (start + size)) starts)
  | Raise e => Raise e
  | Diverged => Diverged
  end.

(** ** The screener endpoint and [fetch_us_equity_symbols] (lines 34-85) *)

(** One entry of a page: a JSON object, of which only the string-valued
    fields matter here. *)
Abbreviation Quote := (gmap string string).

(** Response shape [{result: [{quotes: [{symbol, ...}]}]}]; either key may
    be absent, which is what the two [.get(key, [])] calls provide for. *)
Record ResultObj := { quotes_field : option (list Quote) }.
Record Response := { result_field : option (list ResultObj) }.

Inductive Reply :=
| Failed                   (* misc._make_request raised *)
| Replied (r : Response).

(** The endpoint as seen by the script: the reply to the [n]-th request,
    given the [size] and [offset] of its payload. *)
Definition Screener := nat → Z → Z → Reply.

(** [quote["symbol"] for quote in quotes if "symbol" in quote] *)
Definition new_symbols (quotes : list Quote) : list string :=
  omap (λ quote : Quote, quote !! "symbol"%string) quotes.

(** [max_symbols is not None and len(symbols) >= max_symbols] *)
Definition cap_reached (max_symbols : option Z) (symbols : list string) : bool :=
  match max_symbols with
  | Some m => m <=? len symbols
  | None => false
  end.

(** The quotes of a response: [response.get("result", [])], then
    [results[0].get("quotes", [])]; [[]] stands for either [break]. *)
Definition page_quotes (response : Response) : list Quote :=
  match default [] (result_field response) with
  | [] => []
  | r0 :: _ => default [] (quotes_field r0)
  end.

(** The [while True] loop; [call] counts the requests made so far and
    [fuel] bounds the number of iterations of the model. *)
Fixpoint fetch_loop (make_request : Screener) (fuel : nat) (call : nat)
    (page_size : Z) (max_symbols : option Z)
    (symbols : list string) (offset : Z) : Outcome (list string) :=
  match fuel with
  | O => Diverged
  | S fuel' =>
    if cap_reached max_symbols symbols then Ret symbols
    else
      match make_request call page_size offset with
      | Failed => Raise TransportError
      | Replied response =>
        match default [] (result_field response) with
        | [] => Ret symbols
        | r0 :: _ =>
          let quotes := default [] (quotes_field r0) in
          match quotes with
          | [] => Ret symbols
          | _ :: _ =>
            let symbols' := symbols ++ new_symbols quotes in
            if len quotes <? page_size then Ret symbols'
            else fetch_loop make_request fuel' (S call) page_size max_symbols
                            symbols' (offset + page_size)
          end
        end
      end
  end.

Definition fetch_us_equity_symbols (make_request : Screener) (fuel : nat)
    (page_size : Z) (max_symbols : option Z) : Outcome (list string) :=
  match fetch_loop make_request fuel 0 page_size max_symbols [] 0 with
  | Ret symbols =>
    Ret (match max_symbols with
         | Some m => slice_to symbols m
         | None => symbols
         end)
  | Raise e => Raise e
  | Diverged => Diverged
  end.

(** The [n]-th page of the upstream sequence is empty or short. *)
Definition last_page (make_request : Screener) (page_size : Z) (n : nat) : bool :=
  match make_request n page_size (Z.of_nat n * page_size) with
  | Failed => false
  | Replied response =>
    match page_quotes response with
    | [] => true
    | quotes => len quotes <? page_size
    end
  end.

(** What the specification's wording asks one page to contribute: the
    tokens that are present and non-empty. *)
Definition nonempty_tokens (quotes : list Quote) : list string :=
  omap (λ quote : Quote,
          match quote !! "symbol"%string with
          | Some s => if bool_decide (s = ""%string) then None else Some s
          | None => None
          end) quotes.

(** ** The detail endpoint, the clock and the document store *)

(** The per-symbol value returned by [Ticker.get_modules]: a dictionary of
    sections, or a bare message; stored as it comes. *)
Inductive Payload :=
| PDict (sections : gmap string string)
| PText (msg : string).

Inductive Value :=
| VStr (s : string)
| VDate (t : Z)
| VData (p : Payload)
| VObjectId (n : nat).

Abbreviation Document := (gmap string Value).

(** [UpdateOne(filter, {"$set": fields}, upsert=...)] with the equality
    filter [{"symbol": filter_symbol}]. *)
Record UpdateOne := {
  filter_symbol : string;
  set_fields : gmap string Value;
  upsert : bool
}.

(** A collection: its documents in insertion order and the next fresh
    [_id]. *)
Record Collection := {
  docs : list Document;
  next_id : nat
}.

(** The reply to the [n]-th [get_modules] call for a batch of symbols and
    a list of modules; [None] when the call raises. *)
Definition DetailEndpoint := nat → list string → list string → option (gmap string Payload).

(** The value of the [n]-th reading of the clock. *)
Definition Clock := nat → Z.

(** Which write operations the store refuses (a constraint violation on
    the key of that operation). *)
Definition Rejects := UpdateOne → bool.

(** Modelled from the spec: the document store behind [collection]
    (pymongo's [UpdateOne] and [bulk_write]), which is not part of the
    sources.  This is its filter [{"symbol": s}], which
    selects the documents whose [symbol] field is the string [s]. *)
Definition matches (s : string) (d : Document) : bool :=
  match d !! "symbol"%string with
  | Some (VStr s') => bool_decide (s = s')
  | _ => false
  end.

(** Modelled from the spec: the [$set] update of the store, applied to
    the first document that matches; [None] when no document matches. *)
Fixpoint update_first (s : string) (fields : gmap string Value)
    (ds : list Document) : option (list Document) :=
  match ds with
  | [] => None
  | d :: ds' =>
    if matches s d then Some ((fields ∪ d) :: ds')
    else (d ::.) <$> update_first s fields ds'
  end.

(** Modelled from the spec: the document that an upsert creates when no
    document matches: the filter's field, the [$set] fields over it, and
    a fresh [_id]. *)
Definition inserted_doc (op : UpdateOne) (id : nat) : Document :=
  set_fields op ∪ {[ "symbol"%string := VStr (filter_symbol op) ]}
                ∪ {[ "_id"%string := VObjectId id ]}.

(** Modelled from the spec: one update operation of the store. *)
Definition apply_update (c : Collection) (op : UpdateOne) : Collection :=
  match update_first (filter_symbol op) (set_fields op) (docs c) with
  | Some ds => {| docs := ds; next_id := next_id c |}
  | None =>
    if upsert op
    then {| docs := docs c ++ [inserted_doc op (next_id c)];
            next_id := S (next_id c) |}
    else c
  end.

(** Modelled from the spec: execution of a batch.  Operations are
    attempted one by one; a refused operation leaves the collection as it
    is and is counted; an ordered batch stops at the first refusal, an
    unordered one goes on with the remaining operations. *)
Fixpoint bulk_exec (rejects : Rejects) (ordered : bool) (ops : list UpdateOne)
    (c : Collection) : Collection * nat :=
  match ops with
  | [] => (c, O)
  | op :: rest =>
    if rejects op then
      if ordered then (c, 1%nat)
      else let '(c', n) := bulk_exec rejects ordered rest c in (c', S n)
    else bulk_exec rejects ordered rest (apply_update c op)
  end.

(** Modelled from the spec: [collection.bulk_write(operations, ordered)],
    which raises once the batch has been executed if any operation was
    refused, and refuses an empty list of operations outright.  This is
    the call as a store within reach executes it; the call that fails as
    a whole is [WithOutage.bulk_write] below. *)
Definition bulk_write (rejects : Rejects) (c : Collection)
    (operations : list UpdateOne) (ordered : bool) : Collection * Outcome unit :=
  match operations with
  | [] => (c, Raise InvalidOperation)
  | _ :: _ =>
    match bulk_exec rejects ordered operations c with
    | (c', O) => (c', Ret tt)
    | (c', S n) => (c', Raise (BulkWriteError (S n)))
    end
  end.

(** The documents of a collection that the filter [{"symbol": s}] selects. *)
Definition docs_keyed (s : string) (c : Collection) : list Document :=
  filter (λ d, matches s d = true) (docs c).

(** The first document selected by [{"symbol": s}]. *)
Definition find_doc (s : string) (c : Collection) : option Document :=
  head (docs_keyed s c).

(** The unique index on [symbol] that [main] creates (line 182). *)
Definition unique_index (c : Collection) : Prop :=
  ∀ s, (length (docs_keyed s c) ≤ 1)%nat.

(** ** [upsert_company_data] (lines 88-127) *)

(** [data.get(symbol, {})] *)
Definition symbol_data (data : gmap string Payload) (symbol : string) : Payload :=
  default (PDict ∅) (data !! symbol).

(** The [UpdateOne] built for one symbol (lines 105-118). *)
Definition make_operation (data : gmap string Payload) (timestamp : Z)
    (symbol : string) : UpdateOne :=
  {| filter_symbol := symbol;
     set_fields :=
       {[ "symbol"%string := VStr symbol;
          "last_updated"%string := VDate timestamp;
          "data"%string := VData (symbol_data data symbol) ]};
     upsert := true |}.

(** The inner loop over [batch_symbols] (lines 101-118). *)
Definition build_operations (batch_symbols : list string)
    (data : gmap string Payload) (timestamp : Z) : list UpdateOne :=
  map (make_operation data timestamp) batch_symbols.

(** Lines 101-127 for one batch whose details and timestamp are known:
    build the operations and, if there are any, write them unordered. *)
Definition write_batch (rejects : Rejects) (c : Collection)
    (batch_symbols : list string) (data : gmap string Payload)
    (timestamp : Z) : Collection * Outcome unit :=
  match build_operations batch_symbols data timestamp with
  | [] => (c, Ret tt)
  | operations => bulk_write rejects c operations false
  end.

(** What a run has done so far: the collection, and how many detail
    requests and clock readings were made. *)
Record World := {
  coll : Collection;
  fetch_calls : nat;
  clock_reads : nat
}.

(** One iteration of the loop over batches (lines 97-127). *)
Definition upsert_batch (get_modules : DetailEndpoint) (utcnow : Clock)
    (rejects : Rejects) (modules : list string) (batch_symbols : list string)
    (w : World) : World * Outcome unit :=
  match get_modules (fetch_calls w) batch_symbols modules with
  | None =>
    ({| coll := coll w; fetch_calls := S (fetch_calls w);
        clock_reads := clock_reads w |}, Raise TransportError)
  | Some data =>
    let timestamp := utcnow (clock_reads w) in
    let '(c', r) := write_batch rejects (coll w) batch_symbols data timestamp in
    ({| coll := c'; fetch_calls := S (fetch_calls w);
        clock_reads := S (clock_reads w) |}, r)
  end.

(** The loop over the batches; an exception ends it. *)
Fixpoint run_batches (get_modules : DetailEndpoint) (utcnow : Clock)
    (rejects : Rejects) (modules : list string)
    (batches : list (list string)) (w : World) : World * Outcome unit :=
  match batches with
  | [] => (w, Ret tt)
  | batch_symbols :: rest =>
    match upsert_batch get_modules utcnow rejects modules batch_symbols w with
    | (w', Ret _) => run_batches get_modules utcnow rejects modules rest w'
    | (w', r) => (w', r)
    end
  end.

Definition upsert_company_data (get_modules : DetailEndpoint) (utcnow : Clock)
    (rejects : Rejects) (w : World) (symbols : list string)
    (modules : list string) (batch_size : Z) : World * Outcome unit :=
  match symbols, batch_size =? 0 with
  | _ :: _, true => (w, Raise ZeroDivisionError)   (* total_batches *)
  | _, _ =>
    match chunked symbols batch_size with
    | Ret batches => run_batches get_modules utcnow rejects modules batches w
    | Raise e => (w, Raise e)
    | Diverged => (w, Diverged)
    end
  end.

(** The top-level fields that the [$set] of this script names. *)
Definition written_fields : list string :=
  ["symbol"; "last_updated"; "data"]%string.

(** ** [upsert_company_data] when the store can fail as a whole *)

(** Modelled from the spec: a bulk write that fails as a whole: the store
    cannot be reached, the call raises and nothing of the batch is
    executed.  [bulk_write] above is what the store does with a batch it
    has received and has no such outcome.  The oracle tells it for the
    bulk write of the batch whose detail request was the [n]-th of the
    run. *)
Definition StoreOutage := nat → bool.

Module WithOutage.

(** Modelled from the spec: [collection.bulk_write(operations, ordered)]
    of a store that may be out of reach for this call. *)
Definition bulk_write (unreachable : bool) (rejects : Rejects) (c : Collection)
    (operations : list UpdateOne) (ordered : bool) : Collection * Outcome unit :=
  if unreachable then (c, Raise PersistenceError)
  else bulk_write rejects c operations ordered.

(** Lines 101-127 for one batch. *)
Definition write_batch (unreachable : bool) (rejects : Rejects) (c : Collection)
    (batch_symbols : list string) (data : gmap string Payload)
    (timestamp : Z) : Collection * Outcome unit :=
  match build_operations batch_symbols data timestamp with
  | [] => (c, Ret tt)
  | operations => bulk_write unreachable rejects c operations false
  end.

(** One iteration of the loop over batches (lines 97-127). *)
Definition upsert_batch (outage : StoreOutage) (get_modules : DetailEndpoint)
    (utcnow : Clock) (rejects : Rejects) (modules : list string)
    (batch_symbols : list string) (w : World) : World * Outcome unit :=
  match get_modules (fetch_calls w) batch_symbols modules with
  | None =>
    ({| coll := coll w; fetch_calls := S (fetch_calls w);
        clock_reads := clock_reads w |}, Raise TransportError)
  | Some data =>
    let timestamp := utcnow (clock_reads w) in
    let '(c', r) := write_batch (outage (fetch_calls w)) rejects (coll w)
                      batch_symbols data timestamp in
    ({| coll := c'; fetch_calls := S (fetch_calls w);
        clock_reads := S (clock_reads w) |}, r)
  end.

(** The loop over the batches; an exception ends it. *)
Fixpoint run_batches (outage : StoreOutage) (get_modules : DetailEndpoint)
    (utcnow : Clock) (rejects : Rejects) (modules : list string)
    (batches : list (list string)) (w : World) : World * Outcome unit :=
  match batches with
  | [] => (w, Ret tt)
  | batch_symbols :: rest =>
    match upsert_batch outage get_modules utcnow rejects modules batch_symbols w with
    | (w', Ret _) => run_batches outage get_modules utcnow rejects modules rest w'
    | (w', r) => (w', r)
    end
  end.

Definition upsert_company_data (outage : StoreOutage)
    (get_modules : DetailEndpoint) (utcnow : Clock) (rejects : Rejects)
    (w : World) (symbols : list string) (modules : list string)
    (batch_size : Z) : World * Outcome unit :=
  match symbols, batch_size =? 0 with
  | _ :: _, true => (w, Raise ZeroDivisionError)   (* total_batches *)
  | _, _ =>
    match chunked symbols batch_size with
    | Ret batches => run_batches outage get_modules utcnow rejects modules batches w
    | Raise e => (w, Raise e)
    | Diverged => (w, Diverged)
    end
  end.

End WithOutage.

(** ** [main] (lines 175-189) *)

Module PyStr.

(** [str.isspace] on one character; characters are code points below
    256. *)
Definition is_space (c : ascii) : bool :=
  let n := nat_of_ascii c in
  ((9 <=? n)%nat && (n <=? 13)%nat) || ((28 <=? n)%nat && (n <=? 32)%nat)
  || (n =? 133)%nat || (n =? 160)%nat.

Fixpoint lstrip (s : string) : string :=
  match s with
  | EmptyString => EmptyString
  | String c s' => if is_space c then lstrip s' else s
  end.

Fixpoint rstrip (s : string) : string :=
  match s with
  | EmptyString => EmptyString
  | String c s' =>
    match rstrip s' with
    | EmptyString => if is_space c then EmptyString else String c EmptyString
    | r => String c r
    end
  end.

(** [s.strip()] *)
Definition strip (s : string) : string := rstrip (lstrip s).

(** [s.split(sep)] for a one-character separator: never an empty list. *)
Fixpoint split (sep : ascii) (s : string) : list string :=
  match s with
  | EmptyString => [EmptyString]
  | String c s' =>
    if Ascii.eqb c sep then EmptyString :: split sep s'
    else match split sep s' with
         | piece :: pieces => String c piece :: pieces
         | [] => [String c EmptyString]
         end
  end.

(** [sep.join(l)] *)
Fixpoint join (sep : string) (l : list string) : string :=
  match l with
  | [] => EmptyString
  | [x] => x
  | x :: rest => String.append x (String.append sep (join sep rest))
  end.

(** [c in s] for a character [c]. *)
Fixpoint contains (c : ascii) (s : string) : bool :=
  match s with
  | EmptyString => false
  | String c' s' => Ascii.eqb c' c || contains c s'
  end.

End PyStr.

Definition DEFAULT_MODULES : list string :=
  ["assetProfile"; "summaryProfile"; "quoteType"; "price"; "summaryDetail";
   "defaultKeyStatistics"; "financialData"]%string.

(** [[module.strip() for module in args.modules.split(",") if module.strip()]]
    (line 178) *)
Definition parse_modules (arg : string) : list string :=
  PyStr.strip
    <$> filter (λ module, PyStr.strip module ≠ EmptyString)
               (PyStr.split ","%char arg).

(** The parsed command line, as far as [main] uses it. *)
Record Args := {
  args_modules : string;
  args_batch_size : Z;
  args_screener_page_size : Z;
  args_max_symbols : option Z
}.

#[global] Instance Payload_eq_dec : EqDecision Payload.
Proof. solve_decision. Defined.

#[global] Instance Value_eq_dec : EqDecision Value.
Proof. solve_decision. Defined.

(** Modelled from the spec: the key under which the unique index on
    [symbol] files a document of the store (a document without the field
    is filed under the missing value). *)
Definition index_key (d : Document) : option Value := d !! "symbol"%string.

(** Modelled from the spec: [collection.create_index("symbol", unique=True)]
    of the store, which is refused when two documents have the same key.
    A collection of the model holds documents only: this is the test that
    decides whether the index is built, and that [main] has built it
    shows in how [main] ends ([index_created]). *)
Definition create_index (c : Collection) : bool :=
  bool_decide (NoDup (index_key <$> docs c)).

(** How [main] ends: the index could not be created, or with the outcome
    of the enumeration and the upsert. *)
Inductive MainExit :=
| IndexRefused
| Exit (r : Outcome unit).


(** Lines 178-189: parse the modules, create the index, enumerate, and
    upsert unless there is no symbol. *)
Definition main (make_request : Screener) (get_modules : DetailEndpoint)
    (utcnow : Clock) (rejects : Rejects) (fuel : nat) (args : Args)
    (w : World) : World * MainExit :=
  let modules := parse_modules (args_modules args) in
  if create_index (coll w) then
    match fetch_us_equity_symbols make_request fuel
            (args_screener_page_size args) (args_max_symbols args) with
    | Ret [] => (w, Exit (Ret tt))
    | Ret symbols =>
      let '(w', r) :=
        upsert_company_data get_modules utcnow rejects w symbols modules
          (args_batch_size args) in
      (w', Exit r)
    | Raise e => (w, Exit (Raise e))
    | Diverged => (w, Exit Diverged)
    end
  else (w, IndexRefused).

(** ** Auxiliary notions used in the statements *)

(** [chunked] as blocks of a fixed width, in natural numbers. *)
Definition blocks (items : list string) (sz k : nat) : list (list string) :=
  map (λ i : nat, take sz (drop (i * sz) items)) (seq 0 k).

(** The quotes of the [i]-th page of the upstream sequence. *)
Definition page (make_request : Screener) (page_size : Z) (i : nat) : list Quote :=
  match make_request i page_size (Z.of_nat i * page_size) with
  | Failed => []
  | Replied response => page_quotes response
  end.

(** An operation is settled in a collection when the document it selects
    already carries all the fields it sets. *)
Definition settled (op : UpdateOne) (c : Collection) : Prop :=
  ∃ d, find_doc (filter_symbol op) c = Some d ∧ set_fields op ∪ d = d.

(** [d'] differs from [d] at most in the fields that the script writes. *)
Definition frame (d d' : Document) : Prop :=
  ∀ k, k ∉ written_fields → d' !! k = d !! k.

(** The symbols that pages [call], ..., [call + k - 1] contribute. *)
Definition collected (make_request : Screener) (page_size : Z)
    (call k : nat) : list string :=
  concat (map (λ i, new_symbols (page make_request page_size (call + i)))
              (seq 0 k)).

(** ** Scenario data *)

(** Page size 2, pages [A,B] then [C]: the scenario of the specification. *)
Definition quote_of (s : string) : Quote := {[ "symbol"%string := s ]}.

Definition page_reply (quotes : list Quote) : Reply :=
  Replied {| result_field := Some [ {| quotes_field := Some quotes |} ] |}.

Definition two_pages : Screener := λ n _ _,
  match n with
  | O => page_reply [quote_of "A"; quote_of "B"]
  | 1%nat => page_reply [quote_of "C"]
  | _ => page_reply []
  end.

(** A page with an empty token, an entry without a token, and a proper
    one. *)
Definition mixed_page : list Quote :=
  [quote_of ""; {[ "shortName"%string := "Acme"%string ]}; quote_of "AAPL"].

Definition one_mixed_page : Screener := λ n _ _,
  match n with
  | O => page_reply mixed_page
  | _ => page_reply []
  end.

Definition empty_collection : Collection := {| docs := []; next_id := 0 |}.

Definition fresh_world : World :=
  {| coll := empty_collection; fetch_calls := 0; clock_reads := 0 |}.

(** Details for A and C only. *)
Definition details_AC : gmap string Payload :=
  {[ "A"%string := PDict {[ "x"%string := "1"%string ]};
     "C"%string := PDict {[ "x"%string := "2"%string ]} ]}.

Definition always_AC : DetailEndpoint := λ _ _ _, Some details_AC.

(** The second detail request fails. *)
Definition second_fails : DetailEndpoint := λ n _ _,
  match n with
  | 1%nat => None
  | _ => Some details_AC
  end.

Definition tick : Clock := λ n, 1700000000 + Z.of_nat n.

Definition accept_all : Rejects := λ _, false.

(** The store refuses the operation on key A. *)
Definition reject_A : Rejects := λ op,
  bool_decide (filter_symbol op = "A"%string).

(** A stored document with a field that the script does not know. *)
Definition annotated_A : Document :=
  {[ "_id"%string := VObjectId 7;
     "symbol"%string := VStr "A";
     "note"%string := VStr "keep" ]}.

Definition annotated_collection : Collection :=
  {| docs := [annotated_A]; next_id := 8 |}.

(** The command line of the defaults, with a cap of two symbols and pages
    of two. *)
Definition default_args : Args :=
  {| args_modules := PyStr.join ","%string DEFAULT_MODULES;
     args_batch_size := 50;
     args_screener_page_size := 2;
     args_max_symbols := Some 2 |}.

Definition annotated_world : World :=
  {| coll := annotated_collection; fetch_calls := 0; clock_reads := 0 |}.



Definition never_unreachable : StoreOutage := λ _, false.

(** * Properties *)

(** ** Python primitives *)

Section PyFacts.
Context {A : Type}.
Implicit Types l : list A.

Lemma clamp_nonneg n i : 0 ≤ n → 0 ≤ i → clamp n i = Z.min n i.
Proof.
  intros Hn Hi. unfold clamp.
  destruct (Z.ltb_spec i 0); lia.
Qed.

Lemma slice_to_nonneg l m : 0 ≤ m → slice_to l m = take (Z.to_nat m) l.
Proof.
  intros Hm. unfold slice_to. rewrite clamp_nonneg by lia.
  destruct (Z.le_ge_cases (Z.of_nat (length l)) m).
  - rewrite Z.min_l by lia. rewrite Nat2Z.id.
    rewrite !take_ge; [done | lia | lia].
  - by rewrite Z.min_r by lia.
Qed.

Lemma slice_nonneg l lo hi :
  0 ≤ lo ≤ hi →
  slice l lo hi = take (Z.to_nat (hi - lo)) (drop (Z.to_nat lo) l).
Proof.
  intros Hlh. unfold slice. cbv zeta.
  rewrite !clamp_nonneg by lia.
  destruct (Z.le_ge_cases (Z.of_nat (length l)) lo).
  - rewrite !drop_ge by lia. by rewrite !take_nil.
  - rewrite (Z.min_r _ lo) by lia.
    destruct (Z.le_ge_cases (Z.of_nat (length l)) hi).
    + rewrite Z.min_l by lia.
      rewrite !take_ge; [done | | ]; rewrite length_drop; lia.
    + by rewrite Z.min_r by lia.
Qed.

(** The first [k] blocks of width [sz] make up the first [k * sz]
    elements. *)
Lemma concat_blocks l (sz k : nat) :
  concat (map (λ i : nat, take sz (drop (i * sz) l)) (seq 0 k))
  = take (k * sz) l.
Proof.
  induction k as [|k IH]; [done|].
  rewrite seq_S, map_app, concat_app, IH. cbn [map concat].
  rewrite app_nil_r, take_take_drop. f_equal. lia.
Qed.
End PyFacts.

(** For a positive step, [range(0, n, step)] has [ceil(n / step)] items. *)
Lemma range_len_pos n step :
  0 < step → 0 ≤ n →
  let k := range_len 0 n step in
  0 ≤ k ∧ (k - 1) * step < n ∧ n ≤ k * step ∧ (n = 0 → k = 0).
Proof.
  intros Hs Hn. unfold range_len. cbv zeta.
  destruct (Z.ltb_spec 0 step); [|lia].
  destruct (Z.ltb_spec 0 n).
  - replace (n - 0 - 1) with (n - 1) by lia.
    pose proof (Z.div_mod (n - 1) step ltac:(lia)) as Hdm.
    pose proof (Z.mod_pos_bound (n - 1) step ltac:(lia)) as Hmb.
    pose proof (Z.div_pos (n - 1) step ltac:(lia) ltac:(lia)).
    nia.
  - lia.
Qed.

(** ** Chunker *)

Lemma chunked_blocks items size :
  0 < size →
  chunked items size
  = Ret (blocks items (Z.to_nat size) (Z.to_nat (range_len 0 (len items) size))).
Proof.
  intros Hs. unfold chunked, range, blocks.
  destruct (Z.eqb_spec size 0); [lia|].
  f_equal. rewrite map_map. apply map_ext. intros i.
  rewrite slice_nonneg by nia.
  f_equal; [f_equal; lia | f_equal; nia].
Qed.

Lemma blocks_length items sz k : length (blocks items sz k) = k.
Proof. unfold blocks. by rewrite length_map, length_seq. Qed.

Lemma blocks_lookup items sz k i c :
  blocks items sz k !! i = Some c →
  (i < k)%nat ∧ c = take sz (drop (i * sz) items).
Proof.
  unfold blocks. intros H.
  apply list_lookup_fmap_Some in H as (j & -> & Hj).
  apply lookup_seq in Hj as [-> ?]. done.
Qed.

(** C2. For a positive [size], [chunked items size] yields chunks whose
    concatenation is [items] in order; every chunk but the last has
    length exactly [size]; the last one has a length between 1 and
    [size]; and there are no chunks exactly when [items] is empty. *)
Theorem chunked_partition (items : list string) (size : Z) :
  0 < size →
  ∃ chunks,
    chunked items size = Ret chunks
    ∧ concat chunks = items
    ∧ (∀ i c, chunks !! i = Some c → (S i < length chunks)%nat → len c = size)
    ∧ (∀ c, last chunks = Some c → 1 ≤ len c ≤ size)
    ∧ (chunks = [] ↔ items = []).
Proof.
  intros Hs.
  pose proof (range_len_pos (len items) size Hs ltac:(unfold len; lia))
    as (Hk0 & Hlo & Hhi & Hz).
  set (k := Z.to_nat (range_len 0 (len items) size)) in *.
  set (sz := Z.to_nat size).
  assert (Hlo' : (0 < k → (k - 1) * sz < length items)%nat)
    by (unfold len in *; subst k sz; nia).
  assert (Hhi' : (length items ≤ k * sz)%nat)
    by (unfold len in *; subst k sz; nia).
  assert (Hz' : length items = 0%nat → k = 0%nat)
    by (unfold len in *; subst k; lia).
  exists (blocks items sz k). split; [by apply chunked_blocks|].
  split; [|split; [|split]].
  - unfold blocks. rewrite concat_blocks. by apply take_ge.
  - intros i c Hi Hlt. rewrite blocks_length in Hlt.
    apply blocks_lookup in Hi as [_ ->].
    unfold len. rewrite length_take, length_drop.
    subst sz. nia.
  - intros c Hc. rewrite last_lookup, blocks_length in Hc.
    apply blocks_lookup in Hc as [Hlt ->].
    unfold len. rewrite length_take, length_drop.
    replace (Nat.pred k) with (k - 1)%nat in * by lia.
    specialize (Hlo' ltac:(lia)). subst sz. nia.
  - split.
    + intros Hnil. apply (f_equal length) in Hnil.
      rewrite blocks_length in Hnil. cbn in Hnil.
      destruct items as [|x items]; [done|].
      cbn [length] in Hhi'. nia.
    + intros ->. cbn in Hz'. rewrite Hz' by done. done.
Qed.

(** ** Paginator *)

Section PaginatorFacts.
Variable make_request : Screener.
Variable page_size : Z.

(** One iteration of the loop, with the two empty-page exits merged. *)
Lemma fetch_loop_step fuel call max_symbols symbols offset :
  fetch_loop make_request (S fuel) call page_size max_symbols symbols offset =
  if cap_reached max_symbols symbols then Ret symbols
  else match make_request call page_size offset with
       | Failed => Raise TransportError
       | Replied response =>
         match page_quotes response with
         | [] => Ret symbols
         | quotes =>
           if len quotes <? page_size
           then Ret (symbols ++ new_symbols quotes)
           else fetch_loop make_request fuel (S call) page_size max_symbols
                  (symbols ++ new_symbols quotes) (offset + page_size)
         end
       end.
Proof.
  cbn [fetch_loop]. destruct (cap_reached _ _); [done|].
  destruct (make_request _ _ _) as [|[res]]; [done|].
  unfold page_quotes. cbn.
  destruct (default [] res) as [|[qs] ?]; [done|]. cbn.
  by destruct (default [] qs).
Qed.

(** More fuel does not change an outcome that was reached. *)
Lemma fetch_loop_fuel_mono fuel fuel' call max_symbols symbols offset out :
  fetch_loop make_request fuel call page_size max_symbols symbols offset = out →
  out ≠ Diverged → (fuel ≤ fuel')%nat →
  fetch_loop make_request fuel' call page_size max_symbols symbols offset = out.
Proof.
  revert fuel' call symbols offset.
  induction fuel as [|fuel IH]; intros fuel' call symbols offset Hrun Hout Hle.
  { cbn in Hrun. congruence. }
  destruct fuel' as [|fuel']; [lia|].
  rewrite fetch_loop_step in *.
  destruct (cap_reached _ _); [done|].
  destruct (make_request _ _ _) as [|response]; [done|].
  destruct (page_quotes response) as [|q quotes]; [done|]. cbv zeta in *.
  destruct (_ <? _); [done|].
  apply IH; [done | done | lia].
Qed.

(** If page [call + n] is empty or short, [n + 1] iterations starting
    at request [call] are enough. *)
Lemma fetch_loop_terminates n call max_symbols symbols :
  last_page make_request page_size (call + n) = true →
  fetch_loop make_request (S n) call page_size max_symbols symbols
             (Z.of_nat call * page_size) ≠ Diverged.
Proof.
  revert call symbols.
  induction n as [|n IH]; intros call symbols Hlast;
    rewrite fetch_loop_step; destruct (cap_reached _ _); try done.
  - unfold last_page in Hlast. rewrite Nat.add_0_r in Hlast.
    destruct (make_request _ _ _) as [|response]; [done|].
    destruct (page_quotes response) as [|q quotes]; [done|]. cbv zeta.
    by rewrite Hlast.
  - destruct (make_request _ _ _) as [|response]; [done|].
    destruct (page_quotes response) as [|q quotes]; [done|]. cbv zeta.
    destruct (_ <? _); [done|].
    replace (Z.of_nat call * page_size + page_size)
      with (Z.of_nat (S call) * page_size) by lia.
    apply IH. by replace (S call + n)%nat with (call + S n)%nat by lia.
Qed.

(** Whatever the loop returns extends what it had collected. *)
Lemma fetch_loop_extends fuel call max_symbols symbols offset u :
  fetch_loop make_request fuel call page_size max_symbols symbols offset = Ret u →
  ∃ rest, u = symbols ++ rest.
Proof.
  revert call symbols offset.
  induction fuel as [|fuel IH]; intros call symbols offset Hrun; [done|].
  rewrite fetch_loop_step in Hrun.
  assert (Hstop : Ret symbols = Ret u → ∃ rest, u = symbols ++ rest).
  { intros [= <-]. exists []. by rewrite app_nil_r. }
  destruct (cap_reached _ _); [auto|].
  destruct (make_request _ _ _) as [|response]; [done|].
  destruct (page_quotes response) as [|q quotes]; [auto|]. cbv zeta in *.
  destruct (_ <? _).
  - injection Hrun as <-. eauto.
  - apply IH in Hrun as [rest ->]. rewrite <- app_assoc. eauto.
Qed.

(** The capped loop stops on a prefix of what the uncapped loop
    collects, and the prefix is proper only if the cap was reached. *)
Lemma fetch_loop_capped m fuel call symbols offset u :
  fetch_loop make_request fuel call page_size None symbols offset = Ret u →
  ∃ s, fetch_loop make_request fuel call page_size (Some m) symbols offset = Ret s
       ∧ (s = u ∨ (m ≤ len s ∧ ∃ rest, u = s ++ rest)).
Proof.
  revert call symbols offset.
  induction fuel as [|fuel IH]; intros call symbols offset Hrun; [done|].
  pose proof (fetch_loop_extends _ _ _ _ _ _ Hrun) as Hext.
  rewrite fetch_loop_step in Hrun. rewrite fetch_loop_step.
  cbn [cap_reached] in *.
  destruct (Z.leb_spec m (len symbols)) as [Hcap|Hcap]; [by eauto|].
  destruct (make_request _ _ _) as [|response]; [done|].
  destruct (page_quotes response) as [|q quotes]; [by eauto|]. cbv zeta in *.
  destruct (_ <? _); [by eauto|].
  by apply IH.
Qed.

(** Whatever the capped loop returns is cut to at most [m] items. *)
Lemma slice_to_length (symbols : list string) m :
  0 ≤ m → len (slice_to symbols m) ≤ m.
Proof.
  intros Hm. rewrite slice_to_nonneg by done.
  unfold len. rewrite length_take. lia.
Qed.
End PaginatorFacts.

(** C1. With a cap [m >= 0], the returned list has at most [m] items; if
    the uncapped enumeration returns [u], the capped one returns the
    first [m] items of [u] in their order, which are exactly [m] items
    when [u] has more than [m]; and the returned list is always the
    first [m] of the symbols the capped loop collected. *)
Theorem cap_correct (make_request : Screener) (fuel : nat) (page_size m : Z) :
  0 ≤ m →
  (∀ r, fetch_us_equity_symbols make_request fuel page_size (Some m) = Ret r →
        len r ≤ m
        ∧ ∃ symbols,
            fetch_loop make_request fuel 0 page_size (Some m) [] 0 = Ret symbols
            ∧ r = take (Z.to_nat m) symbols)
  ∧ (∀ u, fetch_us_equity_symbols make_request fuel page_size None = Ret u →
          ∃ r, fetch_us_equity_symbols make_request fuel page_size (Some m) = Ret r
               ∧ r = take (Z.to_nat m) u
               ∧ (m < len u → len r = m)).
Proof.
  intros Hm. unfold fetch_us_equity_symbols. split.
  - intros r Hr.
    destruct (fetch_loop _ _ _ _ (Some m) _ _) as [symbols| |]; [|done..].
    injection Hr as <-. split; [by apply slice_to_length|].
    exists symbols. split; [done|]. by apply slice_to_nonneg.
  - intros u Hu.
    destruct (fetch_loop _ _ _ _ None _ _) as [symbols| |] eqn:Hloop; [|done..].
    injection Hu as <-.
    apply (fetch_loop_capped _ _ m) in Hloop as (s & -> & Hs).
    eexists. split; [done|].
    rewrite slice_to_nonneg by done.
    assert (Htake : take (Z.to_nat m) s = take (Z.to_nat m) symbols).
    { destruct Hs as [->|[Hlen [rest ->]]]; [done|].
      rewrite take_app_le; [done|]. unfold len in Hlen. lia. }
    split; [done|].
    intros Hlt. rewrite Htake. unfold len in *. rewrite length_take. lia.
Qed.

Lemma cap_correct_witness :
  0 ≤ 2
  ∧ fetch_us_equity_symbols two_pages 5 2 None = Ret ["A"; "B"; "C"]%string
  ∧ ∃ r, fetch_us_equity_symbols two_pages 5 2 (Some 2) = Ret r
         ∧ r = take (Z.to_nat 2) ["A"; "B"; "C"]%string
         ∧ (2 < len ["A"; "B"; "C"]%string → len r = 2).
Proof.
  split; [lia|]. split; [reflexivity|].
  apply (proj2 (cap_correct two_pages 5 2 2 ltac:(lia))).
  reflexivity.
Defined.

(** C5. If some page of the upstream sequence is empty or short, say page
    [n], the enumeration terminates: for every cap, [n + 1] iterations
    suffice, and every larger budget gives the same outcome. *)
Theorem fetch_terminates (make_request : Screener) (page_size : Z)
    (max_symbols : option Z) (n : nat) :
  last_page make_request page_size n = true →
  ∃ out, out ≠ Diverged
         ∧ ∀ fuel, (n < fuel)%nat →
             fetch_us_equity_symbols make_request fuel page_size max_symbols = out.
Proof.
  intros Hlast.
  pose proof (fetch_loop_terminates make_request page_size n 0 max_symbols []
                Hlast) as Hterm.
  change (Z.of_nat 0 * page_size) with 0 in Hterm.
  exists (fetch_us_equity_symbols make_request (S n) page_size max_symbols).
  unfold fetch_us_equity_symbols. split.
  - by destruct (fetch_loop _ _ _ _ _ _ _).
  - intros fuel Hfuel.
    by rewrite (fetch_loop_fuel_mono make_request page_size (S n) fuel
                  0 max_symbols [] 0 _ eq_refl Hterm ltac:(lia)).
Qed.

Lemma fetch_terminates_witness :
  last_page two_pages 2 1 = true
  ∧ ∃ out, out ≠ Diverged
           ∧ ∀ fuel, (1 < fuel)%nat →
               fetch_us_equity_symbols two_pages fuel 2 None = out.
Proof.
  split; [reflexivity|].
  apply (fetch_terminates two_pages 2 None 1). reflexivity.
Defined.

Lemma new_symbols_present (quotes : list Quote) :
  Some <$> new_symbols quotes
  = (λ q : Quote, q !! "symbol"%string)
      <$> filter (λ q : Quote, is_Some (q !! "symbol"%string)) quotes.
Proof.
  unfold new_symbols. induction quotes as [|q quotes IH]; [done|].
  rewrite filter_cons.
  change (omap ?f (q :: quotes))
    with (match f q with Some s => s :: omap f quotes | None => omap f quotes end).
  cbv beta.
  destruct (q !! "symbol"%string) as [s|] eqn:Hq.
  - rewrite decide_True by eauto. rewrite !fmap_cons, Hq. f_equal. exact IH.
  - rewrite decide_False by (intros []; done). exact IH.
Qed.

Lemma fetch_loop_pages (make_request : Screener) page_size fuel call symbols u :
  fetch_loop make_request fuel call page_size None symbols
             (Z.of_nat call * page_size) = Ret u →
  ∃ n, u = symbols
           ++ concat (map (λ i, new_symbols (page make_request page_size (call + i)))
                          (seq 0 n)).
Proof.
  revert call symbols.
  induction fuel as [|fuel IH]; intros call symbols Hrun; [done|].
  rewrite fetch_loop_step in Hrun. cbn [cap_reached] in Hrun.
  destruct (make_request _ _ _) as [|response] eqn:Hreq; [done|].
  destruct (page_quotes response) as [|q quotes] eqn:Hq.
  { injection Hrun as <-. exists 0%nat. cbn. by rewrite app_nil_r. }
  cbv zeta in Hrun.
  assert (Hpage : page make_request page_size (call + 0) = q :: quotes).
  { unfold page. by rewrite Nat.add_0_r, Hreq. }
  destruct (_ <? _).
  - injection Hrun as <-. exists 1%nat.
    cbn [seq map concat]. by rewrite Hpage, app_nil_r.
  - replace (Z.of_nat call * page_size + page_size)
      with (Z.of_nat (S call) * page_size) in Hrun by lia.
    apply IH in Hrun as [n ->]. exists (S n).
    rewrite <- app_assoc. f_equal.
    cbn [seq map concat]. rewrite Hpage. f_equal.
    rewrite <- seq_shift, map_map. f_equal. apply map_ext. intros i.
    by replace (call + S i)%nat with (S call + i)%nat by lia.
Qed.

(** C6, as the code has it. Each page contributes exactly its entries
    whose [symbol] key is present, in order and whatever the token is
    (an empty token included); entries without the key are skipped
    without an error; and the uncapped result is the concatenation of
    these contributions over the pages read. *)
Theorem present_tokens_appended (make_request : Screener) (fuel : nat)
    (page_size : Z) :
  (∀ quotes : list Quote,
      Some <$> new_symbols quotes
      = (λ q : Quote, q !! "symbol"%string)
          <$> filter (λ q : Quote, is_Some (q !! "symbol"%string)) quotes)
  ∧ (∀ call max_symbols symbols offset response q quotes,
        cap_reached max_symbols symbols = false →
        make_request call page_size offset = Replied response →
        page_quotes response = q :: quotes →
        fetch_loop make_request (S fuel) call page_size max_symbols symbols offset
        = if len (q :: quotes) <? page_size
          then Ret (symbols ++ new_symbols (q :: quotes))
          else fetch_loop make_request fuel (S call) page_size max_symbols
                 (symbols ++ new_symbols (q :: quotes)) (offset + page_size))
  ∧ (∀ u, fetch_us_equity_symbols make_request fuel page_size None = Ret u →
          ∃ n, u = concat (map (λ i, new_symbols (page make_request page_size i))
                               (seq 0 n))).
Proof.
  split; [apply new_symbols_present|]. split.
  - intros call max_symbols symbols offset response q quotes Hcap Hreq Hq.
    by rewrite fetch_loop_step, Hcap, Hreq, Hq.
  - unfold fetch_us_equity_symbols. intros u Hu.
    destruct (fetch_loop _ _ _ _ _ _ _) as [symbols| |] eqn:Hloop; [|done..].
    injection Hu as <-.
    change 0 with (Z.of_nat 0 * page_size) in Hloop.
    apply fetch_loop_pages in Hloop as [n ->]. by exists n.
Qed.

(** C6 as stated fails: the entry whose token is the empty string is
    appended, where the claim appends only the non-empty tokens. *)
Lemma empty_token_is_appended :
  fetch_us_equity_symbols one_mixed_page 2 5 None = Ret [""; "AAPL"]%string
  ∧ nonempty_tokens mixed_page = ["AAPL"]%string
  ∧ new_symbols mixed_page ≠ nonempty_tokens mixed_page.
Proof. split; [reflexivity|]. split; [reflexivity|]. discriminate. Qed.

Lemma present_tokens_appended_witness :
  fetch_us_equity_symbols one_mixed_page 2 5 None = Ret [""; "AAPL"]%string
  ∧ ∃ n, [""; "AAPL"]%string
         = concat (map (λ i, new_symbols (page one_mixed_page 5 i)) (seq 0 n)).
Proof.
  split; [reflexivity|].
  apply (proj2 (proj2 (present_tokens_appended one_mixed_page 2 5))).
  reflexivity.
Defined.

(** ** The store *)

Lemma matches_true s (d : Document) :
  matches s d = true ↔ d !! "symbol"%string = Some (VStr s).
Proof.
  unfold matches. destruct (d !! "symbol"%string) as [[s'| | |]|]; try done.
  rewrite bool_decide_eq_true. split; [by intros -> | by intros [= ->]].
Qed.

Lemma matches_union s s' (fields d : Document) :
  fields !! "symbol"%string = Some (VStr s) →
  matches s' (fields ∪ d) = bool_decide (s' = s).
Proof.
  intros Hf. unfold matches.
  by rewrite (lookup_union_Some_l _ _ _ _ Hf).
Qed.

Lemma matches_other s s' (d : Document) :
  matches s d = true → s' ≠ s → matches s' d = false.
Proof.
  intros Hd%matches_true Hne. unfold matches. rewrite Hd.
  by apply bool_decide_eq_false.
Qed.

Section UpdateFirst.
Variables (s : string) (fields : Document).
Hypothesis fields_symbol : fields !! "symbol"%string = Some (VStr s).

Lemma update_first_None ds :
  update_first s fields ds = None →
  filter (λ d, matches s d = true) ds = [].
Proof.
  induction ds as [|d ds IH]; [done|]. cbn [update_first].
  destruct (matches s d) eqn:Hm; [done|].
  destruct (update_first s fields ds); [done|]. intros _.
  rewrite filter_cons_False by congruence. by apply IH.
Qed.

Lemma update_first_keyed ds ds' :
  update_first s fields ds = Some ds' →
  ∃ d rest,
    filter (λ d, matches s d = true) ds = d :: rest
    ∧ filter (λ d, matches s d = true) ds' = (fields ∪ d) :: rest.
Proof.
  revert ds'. induction ds as [|d ds IH]; intros ds'; [done|].
  cbn [update_first]. destruct (matches s d) eqn:Hm.
  - intros [= <-]. exists d, (filter (λ d, matches s d = true) ds).
    rewrite !filter_cons_True; [done | | done].
    rewrite (matches_union s) by done. by apply bool_decide_eq_true.
  - destruct (update_first s fields ds) as [ds0|]; [|done].
    intros [= <-]. destruct (IH _ eq_refl) as (d0 & rest & H1 & H2).
    exists d0, rest. rewrite !filter_cons_False by congruence. done.
Qed.

Lemma update_first_other s' ds ds' :
  update_first s fields ds = Some ds' → s' ≠ s →
  filter (λ d, matches s' d = true) ds'
  = filter (λ d, matches s' d = true) ds.
Proof.
  intros Hup Hne. revert ds' Hup.
  induction ds as [|d ds IH]; intros ds'; [done|].
  cbn [update_first]. destruct (matches s d) eqn:Hm.
  - intros [= <-].
    rewrite !filter_cons_False; [done | |].
    + by rewrite (matches_other s s' d).
    + rewrite (matches_union s) by done.
      rewrite bool_decide_eq_false_2; done.
  - destruct (update_first s fields ds) as [ds0|]; [|done].
    intros [= <-]. rewrite !filter_cons. rewrite (IH _ eq_refl). done.
Qed.

(** An update whose fields are already in the matched document changes
    nothing. *)
Lemma update_first_same ds ds' d :
  update_first s fields ds = Some ds' →
  head (filter (λ d, matches s d = true) ds) = Some d →
  fields ∪ d = d →
  ds' = ds.
Proof.
  revert ds'. induction ds as [|d0 ds IH]; intros ds'; [done|].
  cbn [update_first]. destruct (matches s d0) eqn:Hm.
  - intros [= <-]. rewrite filter_cons_True by done.
    intros [= ->] ->. done.
  - destruct (update_first s fields ds) as [ds0|]; [|done].
    intros [= <-]. rewrite filter_cons_False by congruence.
    intros Hh Hu. f_equal. by apply IH.
Qed.
End UpdateFirst.

(** Positions are kept, and a document that the filter does not select
    is not touched. *)
Lemma update_first_lookup s (fields : Document) ds ds' i d :
  update_first s fields ds = Some ds' →
  ds !! i = Some d →
  ds' !! i = Some d ∨ (matches s d = true ∧ ds' !! i = Some (fields ∪ d)).
Proof.
  revert ds' i. induction ds as [|d0 ds IH]; intros ds' i; [done|].
  cbn [update_first]. destruct (matches s d0) eqn:Hm.
  - intros [= <-]. destruct i as [|i]; cbn; [|by left].
    intros [= ->]. by right.
  - destruct (update_first s fields ds) as [ds0|]; [|done].
    intros [= <-]. destruct i as [|i]; cbn; [by left|].
    by apply IH.
Qed.

Section OneOperation.
Variables (data : gmap string Payload) (timestamp : Z).
Local Abbreviation mk := (make_operation data timestamp).

Lemma mk_symbol s : set_fields (mk s) !! "symbol"%string = Some (VStr s).
Proof. done. Qed.

Lemma mk_last_updated s :
  set_fields (mk s) !! "last_updated"%string = Some (VDate timestamp).
Proof. done. Qed.

Lemma mk_data s :
  set_fields (mk s) !! "data"%string = Some (VData (symbol_data data s)).
Proof. done. Qed.

Lemma mk_frame s k : k ∉ written_fields → set_fields (mk s) !! k = None.
Proof.
  unfold written_fields. rewrite !not_elem_of_cons. intros (?&?&?&_).
  cbn. rewrite !lookup_insert_ne by done. by apply lookup_singleton_ne.
Qed.

Lemma docs_keyed_apply s s' c :
  docs_keyed s' (apply_update c (mk s)) =
  if decide (s' = s) then
    match docs_keyed s c with
    | [] => [inserted_doc (mk s) (next_id c)]
    | d :: rest => (set_fields (mk s) ∪ d) :: rest
    end
  else docs_keyed s' c.
Proof.
  unfold docs_keyed, apply_update.
  change (filter_symbol (mk s)) with s. change (upsert (mk s)) with true.
  destruct (update_first s (set_fields (mk s)) (docs c)) as [ds|] eqn:Hup;
    cbn [docs].
  - destruct (decide (s' = s)) as [->|Hne].
    + destruct (update_first_keyed s (set_fields (mk s)) (mk_symbol s) _ _ Hup)
        as (d & rest & -> & ->). done.
    + by apply (update_first_other s (set_fields (mk s)) (mk_symbol s)).
  - apply update_first_None in Hup. rewrite filter_app.
    destruct (decide (s' = s)) as [->|Hne].
    + rewrite Hup. cbn [app]. rewrite filter_cons_True; [done|].
      apply matches_true. unfold inserted_doc.
      by do 2 apply lookup_union_Some_l.
    + rewrite filter_cons_False, filter_nil, app_nil_r; [done|].
      rewrite matches_true. unfold inserted_doc.
      rewrite (lookup_union_Some_l _ _ _ (VStr s)); [congruence|].
      by apply lookup_union_Some_l.
Qed.

Lemma settled_apply_same s c : settled (mk s) (apply_update c (mk s)).
Proof.
  unfold settled, find_doc. change (filter_symbol (mk s)) with s.
  rewrite docs_keyed_apply, decide_True by done.
  destruct (docs_keyed s c) as [|d rest]; eexists; (split; [done|]).
  - unfold inserted_doc.
    by rewrite !(assoc_L (∪)), (idemp_L (∪)).
  - by rewrite (assoc_L (∪)), (idemp_L (∪)).
Qed.

Lemma settled_apply_other s s' c :
  settled (mk s) c → settled (mk s) (apply_update c (mk s')).
Proof.
  destruct (decide (s = s')) as [<-|Hne]; [intros _; apply settled_apply_same|].
  unfold settled, find_doc. change (filter_symbol (mk s)) with s.
  by rewrite docs_keyed_apply, decide_False.
Qed.

Lemma apply_update_settled s c : settled (mk s) c → apply_update c (mk s) = c.
Proof.
  intros (d & Hd & Hu). unfold apply_update, find_doc, docs_keyed in *.
  change (filter_symbol (mk s)) with s in *.
  destruct (update_first s (set_fields (mk s)) (docs c)) as [ds|] eqn:Hup.
  - rewrite (update_first_same s (set_fields (mk s)) _ _ d Hup Hd Hu). by destruct c.
  - apply update_first_None in Hup. by rewrite Hup in Hd.
Qed.

Lemma unique_index_apply s c :
  unique_index c → unique_index (apply_update c (mk s)).
Proof.
  intros Hu s'. rewrite docs_keyed_apply.
  destruct (decide (s' = s)) as [->|]; [|apply Hu].
  specialize (Hu s). by destruct (docs_keyed s c).
Qed.

Lemma apply_update_lookup s c i d :
  docs c !! i = Some d →
  ∃ d', docs (apply_update c (mk s)) !! i = Some d'
        ∧ frame d d' ∧ (matches s d = false → d' = d).
Proof.
  intros Hi. unfold apply_update.
  change (filter_symbol (mk s)) with s. change (upsert (mk s)) with true.
  destruct (update_first s (set_fields (mk s)) (docs c)) as [ds|] eqn:Hup;
    cbn [docs].
  - destruct (update_first_lookup _ _ _ _ _ _ Hup Hi) as [H|[Hm H]].
    + exists d. done.
    + eexists. split; [done|]. split; [|congruence].
      intros k Hk. rewrite lookup_union_r; [done|]. by apply mk_frame.
  - exists d. split; [|done].
    apply lookup_app_l_Some. done.
Qed.
End OneOperation.

Lemma frame_refl d : frame d d.
Proof. by intros k _. Qed.

Lemma frame_trans d1 d2 d3 : frame d1 d2 → frame d2 d3 → frame d1 d3.
Proof. intros H12 H23 k Hk. by rewrite H23, H12. Qed.

(** An unordered batch commits exactly the operations that the store
    does not refuse, and counts the refused ones. *)
Lemma bulk_exec_unordered rejects ops c :
  bulk_exec rejects false ops c
  = (foldl apply_update c (filter (λ op, rejects op = false) ops),
     length (filter (λ op, rejects op = true) ops)).
Proof.
  revert c. induction ops as [|op ops IH]; intros c; [done|].
  cbn [bulk_exec]. destruct (rejects op) eqn:Hr.
  - rewrite IH. rewrite filter_cons_False by congruence.
    by rewrite filter_cons_True by done.
  - rewrite IH. rewrite filter_cons_True by done.
    by rewrite filter_cons_False by congruence.
Qed.

Section OneBatch.
Variables (rejects : Rejects) (data : gmap string Payload) (timestamp : Z).
Local Abbreviation mk := (make_operation data timestamp).
Local Abbreviation exec l c := (fst (bulk_exec rejects false (map mk l) c)).

Lemma exec_cons s l c :
  exec (s :: l) c
  = if rejects (mk s) then exec l c else exec l (apply_update c (mk s)).
Proof.
  cbn [map bulk_exec]. destruct (rejects (mk s)); [|done].
  by destruct (bulk_exec rejects false (map mk l) c).
Qed.

Lemma exec_preserves_settled l s c :
  settled (mk s) c → settled (mk s) (exec l c).
Proof.
  revert c. induction l as [|s0 l IH]; intros c Hs; [done|].
  rewrite exec_cons. destruct (rejects (mk s0)); [by apply IH|].
  apply IH. by apply settled_apply_other.
Qed.

Lemma exec_settles l s c :
  s ∈ l → rejects (mk s) = false → settled (mk s) (exec l c).
Proof.
  intros Hin Hr. revert c.
  induction l as [|s0 l IH]; intros c; [by apply elem_of_nil in Hin|].
  rewrite exec_cons. apply elem_of_cons in Hin as [<-|Hin].
  - rewrite Hr. apply exec_preserves_settled, settled_apply_same.
  - destruct (rejects (mk s0)); by apply IH.
Qed.

Lemma exec_settled_id l c :
  (∀ s, s ∈ l → rejects (mk s) = false → settled (mk s) c) →
  exec l c = c.
Proof.
  induction l as [|s0 l IH]; intros Hall; [done|].
  rewrite exec_cons. destruct (rejects (mk s0)) eqn:Hr.
  - apply IH. intros s Hs. apply Hall. by right.
  - rewrite apply_update_settled by (apply Hall; [by left | done]).
    apply IH. intros s Hs. apply Hall. by right.
Qed.

Lemma exec_unique l c : unique_index c → unique_index (exec l c).
Proof.
  revert c. induction l as [|s0 l IH]; intros c Hu; [done|].
  rewrite exec_cons. destruct (rejects (mk s0)); [by apply IH|].
  by apply IH, unique_index_apply.
Qed.

Lemma exec_lookup l c i d :
  docs c !! i = Some d →
  ∃ d', docs (exec l c) !! i = Some d'
        ∧ frame d d'
        ∧ ((∀ s, s ∈ l → matches s d = false) → d' = d).
Proof.
  revert c d. induction l as [|s0 l IH]; intros c d Hi.
  { exists d. split; [done|]. split; [apply frame_refl | done]. }
  rewrite exec_cons. destruct (rejects (mk s0)).
  - destruct (IH _ _ Hi) as (d' & H1 & H2 & H3).
    exists d'. split; [done|]. split; [done|].
    intros Hall. apply H3. intros s Hs. apply Hall. by right.
  - destruct (apply_update_lookup data timestamp s0 _ _ _ Hi)
      as (d1 & Hi1 & Hf1 & Hs1).
    destruct (IH _ _ Hi1) as (d' & H1 & H2 & H3).
    exists d'. split; [done|]. split; [by eapply frame_trans|].
    intros Hall. rewrite H3.
    + apply Hs1, Hall. by left.
    + rewrite Hs1 by (apply Hall; by left).
      intros s Hs. apply Hall. by right.
Qed.

(** The state of the key [s] after a batch that holds an accepted
    operation for it. *)
Lemma exec_document l c s :
  unique_index c → s ∈ l → rejects (mk s) = false →
  ∃ d, docs_keyed s (exec l c) = [d]
       ∧ d !! "symbol"%string = Some (VStr s)
       ∧ d !! "last_updated"%string = Some (VDate timestamp)
       ∧ d !! "data"%string = Some (VData (symbol_data data s)).
Proof.
  intros Hu Hin Hr.
  destruct (exec_settles l s c Hin Hr) as (d & Hd & Hset).
  pose proof (exec_unique l c Hu s) as Hlen.
  unfold find_doc in Hd. change (filter_symbol (mk s)) with s in Hd.
  destruct (docs_keyed s (exec l c)) as [|d0 [|d1 rest]] eqn:Hk;
    [done| |cbn in Hlen; lia].
  injection Hd as ->. exists d. split; [done|].
  rewrite <- Hset.
  split; [|split]; by apply lookup_union_Some_l.
Qed.

Lemma write_batch_store c batch :
  fst (write_batch rejects c batch data timestamp) = exec batch c.
Proof.
  unfold write_batch, build_operations, bulk_write.
  destruct batch as [|s batch]; [done|].
  cbn [map]. by destruct (bulk_exec _ _ _ _) as [c' [|n]].
Qed.

Lemma write_batch_outcome c batch :
  snd (write_batch rejects c batch data timestamp)
  = match length (filter (λ op, rejects op = true) (map mk batch)) with
    | O => Ret tt
    | S n => Raise (BulkWriteError (S n))
    end.
Proof.
  unfold write_batch, build_operations, bulk_write.
  destruct batch as [|s batch]; [done|].
  cbn [map]. rewrite bulk_exec_unordered.
  by destruct (length _).
Qed.

Lemma write_batch_accepts c batch :
  snd (write_batch rejects c batch data timestamp) = Ret tt →
  ∀ s, s ∈ batch → rejects (mk s) = false.
Proof.
  rewrite write_batch_outcome. intros Hout s Hs.
  destruct (rejects (mk s)) eqn:Hr; [|done].
  assert (Hin : mk s ∈ filter (λ op, rejects op = true) (map mk batch)).
  { apply list_elem_of_filter. split; [done|]. by apply list_elem_of_fmap_2. }
  destruct (filter _ _); [by apply elem_of_nil in Hin | done].
Qed.
End OneBatch.

(** ** Upserter *)

(** C3. A batch builds one operation per symbol of the chunk, in order,
    each an upsert keyed by its symbol; a symbol that the detail mapping
    lacks gets the empty record as its data; and once the write has
    returned, every symbol of the chunk has exactly one document keyed by
    it, holding that data (the collection carries the unique index on
    [symbol]). *)
Theorem full_coverage (rejects : Rejects) (c : Collection)
    (batch : list string) (data : gmap string Payload) (timestamp : Z) :
  let operations := build_operations batch data timestamp in
  length operations = length batch
  ∧ (∀ i s, batch !! i = Some s →
       ∃ op, operations !! i = Some op
             ∧ filter_symbol op = s ∧ upsert op = true
             ∧ set_fields op !! "symbol"%string = Some (VStr s)
             ∧ set_fields op !! "data"%string
               = Some (VData (default (PDict ∅) (data !! s))))
  ∧ (∀ s, s ∈ batch → data !! s = None →
       ∃ op, op ∈ operations ∧ filter_symbol op = s
             ∧ set_fields op !! "data"%string = Some (VData (PDict ∅)))
  ∧ (∀ c', unique_index c →
       write_batch rejects c batch data timestamp = (c', Ret tt) →
       ∀ s, s ∈ batch →
         ∃ d, docs_keyed s c' = [d]
              ∧ d !! "symbol"%string = Some (VStr s)
              ∧ d !! "data"%string
                = Some (VData (default (PDict ∅) (data !! s)))).
Proof.
  cbv zeta. unfold build_operations. split; [by rewrite length_map|].
  split; [|split].
  - intros i s Hi. exists (make_operation data timestamp s).
    split; [|done]. change (map ?f ?l) with (f <$> l).
    by rewrite list_lookup_fmap, Hi.
  - intros s Hs Hnone. exists (make_operation data timestamp s).
    split; [by apply list_elem_of_fmap_2|]. split; [done|].
    rewrite mk_data. unfold symbol_data. by rewrite Hnone.
  - intros c' Hu Hw s Hs.
    pose proof (write_batch_store rejects data timestamp c batch) as Hst.
    pose proof (write_batch_accepts rejects data timestamp c batch) as Hacc.
    rewrite Hw in Hst, Hacc. cbn [fst snd] in Hst, Hacc. subst c'.
    destruct (exec_document rejects data timestamp batch c s Hu Hs
                (Hacc eq_refl s Hs)) as (d & H1 & H2 & _ & H4).
    by exists d.
Qed.

(** C4. Writing the same chunk with the same details and the same
    timestamp a second time leaves the store, and the outcome, as the
    first write left them; so does writing again any batch drawn from the
    same symbols, in any order. *)
Theorem upsert_idempotent (rejects : Rejects) (c : Collection)
    (batch : list string) (data : gmap string Payload) (timestamp : Z) :
  let once := write_batch rejects c batch data timestamp in
  write_batch rejects (fst once) batch data timestamp = once
  ∧ ∀ batch', (∀ s, s ∈ batch' → s ∈ batch) →
      fst (write_batch rejects (fst once) batch' data timestamp) = fst once.
Proof.
  cbv zeta.
  assert (Hagain : ∀ batch', (∀ s, s ∈ batch' → s ∈ batch) →
            fst (write_batch rejects
                   (fst (write_batch rejects c batch data timestamp))
                   batch' data timestamp)
            = fst (write_batch rejects c batch data timestamp)).
  { intros batch' Hsub. rewrite !write_batch_store.
    apply exec_settled_id. intros s Hs Hr.
    apply exec_settles; [by apply Hsub | done]. }
  split; [|done].
  rewrite (surjective_pairing (write_batch rejects (fst _) _ _ _)).
  rewrite (surjective_pairing (write_batch rejects c _ _ _)) at 3.
  f_equal; [by apply Hagain|].
  by rewrite !write_batch_outcome.
Qed.

(** C7. The operations of a chunk go to the store in one unordered
    [bulk_write]; the store ends up with exactly the operations it does
    not refuse applied, those placed after a refused one included, so
    that every symbol whose operation is accepted has its document
    written; and the call raises, after the batch has been executed, if
    and only if some operation was refused. *)
Theorem unordered_resilience (rejects : Rejects) (c : Collection)
    (batch : list string) (data : gmap string Payload) (timestamp : Z) :
  let operations := build_operations batch data timestamp in
  let result := write_batch rejects c batch data timestamp in
  (batch ≠ [] → result = bulk_write rejects c operations false)
  ∧ fst result
    = foldl apply_update c (filter (λ op, rejects op = false) operations)
  ∧ (∀ s, s ∈ batch → rejects (make_operation data timestamp s) = false →
       ∃ d, find_doc s (fst result) = Some d
            ∧ d !! "data"%string = Some (VData (symbol_data data s))
            ∧ d !! "last_updated"%string = Some (VDate timestamp))
  ∧ (snd result = Ret tt ↔ ∀ op, op ∈ operations → rejects op = false)
  ∧ (∀ op, op ∈ operations → rejects op = true →
       ∃ n, snd result = Raise (BulkWriteError (S n))
            ∧ S n = length (filter (λ op, rejects op = true) operations)).
Proof.
  cbv zeta. split; [|split; [|split; [|split]]].
  - unfold write_batch, build_operations. by destruct batch.
  - rewrite write_batch_store. unfold build_operations.
    by rewrite bulk_exec_unordered.
  - intros s Hs Hr. rewrite write_batch_store.
    destruct (exec_settles rejects data timestamp batch s c Hs Hr)
      as (d & Hd & Hset).
    exists d. split; [done|]. rewrite <- Hset.
    split; by apply lookup_union_Some_l.
  - rewrite write_batch_outcome. unfold build_operations. split.
    + intros Hout op Hop. destruct (rejects op) eqn:Hr; [|done].
      assert (Hin : op ∈ filter (λ op, rejects op = true)
                           (map (make_operation data timestamp) batch))
        by by apply list_elem_of_filter.
      destruct (filter _ _); [by apply elem_of_nil in Hin | done].
    + intros Hall.
      destruct (filter _ _) as [|op ops] eqn:Hf; [done|].
      assert (Hin : op ∈ filter (λ op, rejects op = true)
                           (map (make_operation data timestamp) batch))
        by (rewrite Hf; by left).
      apply list_elem_of_filter in Hin as [Hr Hin].
      rewrite (Hall op Hin) in Hr. done.
  - intros op Hop Hr. rewrite write_batch_outcome.
    unfold build_operations in *.
    assert (Hin : op ∈ filter (λ op, rejects op = true)
                         (map (make_operation data timestamp) batch))
      by by apply list_elem_of_filter.
    destruct (filter _ _) as [|op0 ops]; [by apply elem_of_nil in Hin|].
    by exists (length ops).
Qed.

(** C9. An upsert leaves every document of the collection in its place
    and changes in it no field other than [symbol], [last_updated] and
    [data]; the document selected by the key of an operation gets these
    three fields and keeps all its other fields. *)
Theorem set_keeps_other_fields (rejects : Rejects) (c : Collection)
    (batch : list string) (data : gmap string Payload) (timestamp : Z) :
  (∀ i d, docs c !! i = Some d →
     ∃ d', docs (fst (write_batch rejects c batch data timestamp)) !! i = Some d'
           ∧ ∀ k, k ∉ written_fields → d' !! k = d !! k)
  ∧ (∀ s d, find_doc s c = Some d →
       ∃ d', find_doc s (apply_update c (make_operation data timestamp s)) = Some d'
             ∧ d' !! "symbol"%string = Some (VStr s)
             ∧ d' !! "last_updated"%string = Some (VDate timestamp)
             ∧ d' !! "data"%string = Some (VData (symbol_data data s))
             ∧ ∀ k, k ∉ written_fields → d' !! k = d !! k).
Proof.
  split.
  - intros i d Hi. rewrite write_batch_store.
    destruct (exec_lookup rejects data timestamp batch c i d Hi)
      as (d' & H1 & H2 & _).
    by exists d'.
  - intros s d Hd. unfold find_doc in *. rewrite docs_keyed_apply.
    rewrite decide_True by done.
    destruct (docs_keyed s c) as [|d0 rest]; [done|].
    injection Hd as ->. eexists. split; [done|].
    split; [|split; [|split]]; try by apply lookup_union_Some_l.
    intros k Hk. apply lookup_union_r. by apply mk_frame.
Qed.

(** C10. One batch reads the clock once, before building its operations:
    every operation it builds carries that reading as [last_updated], and
    so does every document that the batch writes. *)
Theorem batch_shares_timestamp (get_modules : DetailEndpoint) (utcnow : Clock)
    (rejects : Rejects) (modules batch : list string) (w : World)
    (data : gmap string Payload) :
  get_modules (fetch_calls w) batch modules = Some data →
  let t := utcnow (clock_reads w) in
  let result := upsert_batch get_modules utcnow rejects modules batch w in
  result = ({| coll := fst (write_batch rejects (coll w) batch data t);
               fetch_calls := S (fetch_calls w);
               clock_reads := S (clock_reads w) |},
            snd (write_batch rejects (coll w) batch data t))
  ∧ (∀ op, op ∈ build_operations batch data t →
       set_fields op !! "last_updated"%string = Some (VDate t))
  ∧ (∀ s, s ∈ batch → rejects (make_operation data t s) = false →
       ∃ d, find_doc s (coll (fst result)) = Some d
            ∧ d !! "last_updated"%string = Some (VDate t)).
Proof.
  intros Hdata. cbv zeta.
  assert (Hres : upsert_batch get_modules utcnow rejects modules batch w
    = ({| coll := fst (write_batch rejects (coll w) batch data
                         (utcnow (clock_reads w)));
          fetch_calls := S (fetch_calls w);
          clock_reads := S (clock_reads w) |},
       snd (write_batch rejects (coll w) batch data (utcnow (clock_reads w))))).
  { unfold upsert_batch. rewrite Hdata. by destruct (write_batch _ _ _ _ _). }
  split; [done|]. split.
  - unfold build_operations. intros op Hop.
    apply list_elem_of_fmap in Hop as (s & -> & _). done.
  - intros s Hs Hr. rewrite Hres. cbn [fst coll].
    rewrite write_batch_store.
    destruct (exec_settles rejects data (utcnow (clock_reads w)) batch s
                (coll w) Hs Hr) as (d & Hd & Hset).
    exists d. split; [done|]. rewrite <- Hset.
    by apply lookup_union_Some_l.
Qed.

(** ** Orchestration of the batches *)

Section Batches.
Variables (get_modules : DetailEndpoint) (utcnow : Clock) (rejects : Rejects).
Variable modules : list string.
Local Abbreviation run := (run_batches get_modules utcnow rejects modules).

Lemma run_batches_app pre rest w :
  run (pre ++ rest) w
  = match run pre w with
    | (w1, Ret _) => run rest w1
    | (w1, r) => (w1, r)
    end.
Proof.
  revert w. induction pre as [|b pre IH]; intros w; [done|].
  cbn [app run_batches].
  destruct (upsert_batch _ _ _ _ _ _) as [w' [[]| |]]; [apply IH|done..].
Qed.

Lemma upsert_company_data_chunks w symbols batch_size batches :
  chunked symbols batch_size = Ret batches →
  upsert_company_data get_modules utcnow rejects w symbols modules batch_size
  = run batches w.
Proof.
  intros Hch. unfold upsert_company_data. rewrite Hch.
  destruct symbols as [|s symbols]; [done|].
  destruct (Z.eqb_spec batch_size 0) as [->|]; [|done].
  unfold chunked, range in Hch. done.
Qed.
End Batches.

(** ** Scenarios *)

Lemma unique_index_empty : unique_index empty_collection.
Proof. intros s. cbn. lia. Qed.

Example chunked_abc :
  chunked ["A"; "B"; "C"]%string 2 = Ret [["A"; "B"]; ["C"]]%string.
Proof. reflexivity. Qed.

Example chunked_zero : chunked ["A"]%string 0 = Raise ValueError.
Proof. reflexivity. Qed.

Example chunked_negative : chunked ["A"; "B"]%string (-1) = Ret [].
Proof. reflexivity. Qed.

Example enumerate_uncapped :
  fetch_us_equity_symbols two_pages 3 2 None = Ret ["A"; "B"; "C"]%string.
Proof. reflexivity. Qed.

Example enumerate_capped :
  fetch_us_equity_symbols two_pages 3 2 (Some 2) = Ret ["A"; "B"]%string.
Proof. reflexivity. Qed.

(** An ordered batch would stop at the refused operation. *)
Example ordered_batch_stops :
  docs (fst (bulk_exec reject_A true
               (build_operations ["A"; "B"]%string details_AC 5)
               empty_collection)) = [].
Proof. reflexivity. Qed.

Lemma chunked_partition_witness :
  0 < 2
  ∧ ∃ chunks,
      chunked ["A"; "B"; "C"]%string 2 = Ret chunks
      ∧ concat chunks = ["A"; "B"; "C"]%string
      ∧ (∀ i c, chunks !! i = Some c → (S i < length chunks)%nat → len c = 2)
      ∧ (∀ c, last chunks = Some c → 1 ≤ len c ≤ 2)
      ∧ (chunks = [] ↔ ["A"; "B"; "C"]%string = []).
Proof.
  split; [lia|]. apply (chunked_partition ["A"; "B"; "C"]%string 2). lia.
Defined.

Lemma full_coverage_witness :
  unique_index empty_collection
  ∧ ∀ s, s ∈ ["A"; "B"; "C"; "D"]%string →
      ∃ d, docs_keyed s
             (fst (write_batch accept_all empty_collection
                     ["A"; "B"; "C"; "D"]%string details_AC 5)) = [d]
           ∧ d !! "symbol"%string = Some (VStr s)
           ∧ d !! "data"%string
             = Some (VData (default (PDict ∅) (details_AC !! s))).
Proof.
  split; [apply unique_index_empty|].
  apply (proj2 (proj2 (proj2
           (full_coverage accept_all empty_collection
              ["A"; "B"; "C"; "D"]%string details_AC 5)))).
  - apply unique_index_empty.
  - vm_compute. reflexivity.
Defined.

Lemma upsert_idempotent_witness :
  write_batch reject_A
    (fst (write_batch reject_A annotated_collection ["A"; "B"]%string details_AC 5))
    ["A"; "B"]%string details_AC 5
  = write_batch reject_A annotated_collection ["A"; "B"]%string details_AC 5.
Proof.
  apply (proj1 (upsert_idempotent reject_A annotated_collection
                  ["A"; "B"]%string details_AC 5)).
Defined.

Lemma unordered_resilience_witness :
  "B"%string ∈ ["A"; "B"]%string
  ∧ reject_A (make_operation details_AC 5 "B") = false
  ∧ ∃ d, find_doc "B"
           (fst (write_batch reject_A empty_collection
                   ["A"; "B"]%string details_AC 5)) = Some d
         ∧ d !! "data"%string = Some (VData (symbol_data details_AC "B"))
         ∧ d !! "last_updated"%string = Some (VDate 5).
Proof.
  assert (Hin : "B"%string ∈ ["A"; "B"]%string) by (right; left).
  split; [exact Hin|]. split; [reflexivity|].
  apply (proj1 (proj2 (proj2
           (unordered_resilience reject_A empty_collection
              ["A"; "B"]%string details_AC 5))) "B"%string Hin).
  reflexivity.
Defined.

Lemma set_keeps_other_fields_witness :
  find_doc "A" annotated_collection = Some annotated_A
  ∧ ∃ d', find_doc "A"
            (apply_update annotated_collection (make_operation details_AC 5 "A"))
          = Some d'
          ∧ d' !! "symbol"%string = Some (VStr "A")
          ∧ d' !! "last_updated"%string = Some (VDate 5)
          ∧ d' !! "data"%string = Some (VData (symbol_data details_AC "A"))
          ∧ ∀ k, k ∉ written_fields → d' !! k = annotated_A !! k.
Proof.
  split; [reflexivity|].
  apply (proj2 (set_keeps_other_fields accept_all annotated_collection
                  [] details_AC 5) "A"%string annotated_A).
  reflexivity.
Defined.

Lemma batch_shares_timestamp_witness :
  always_AC (fetch_calls fresh_world) ["A"; "B"]%string [] = Some details_AC
  ∧ ∀ op, op ∈ build_operations ["A"; "B"]%string details_AC
                 (tick (clock_reads fresh_world)) →
      set_fields op !! "last_updated"%string
      = Some (VDate (tick (clock_reads fresh_world))).
Proof.
  split; [reflexivity|].
  apply (proj1 (proj2
           (batch_shares_timestamp always_AC tick accept_all []
              ["A"; "B"]%string fresh_world details_AC eq_refl))).
Defined.

(** * Further properties of the code *)

(** ** Chunker: count and position of the chunks *)

Lemma chunked_len (items : list string) (size : Z) chunks :
  0 < size → chunked items size = Ret chunks →
  len chunks = (len items + size - 1) / size.
Proof.
  intros Hs Hch. rewrite chunked_blocks in Hch by done. injection Hch as <-.
  unfold len at 1. rewrite blocks_length.
  pose proof (range_len_pos (len items) size Hs ltac:(unfold len; lia))
    as (Hk0 & _).
  rewrite Z2Nat.id by done. unfold range_len.
  destruct (Z.ltb_spec 0 size); [|lia].
  destruct (Z.ltb_spec 0 (len items)).
  - replace (len items + size - 1) with (len items - 0 - 1 + 1 * size) by lia.
    by rewrite Z.div_add by lia.
  - assert (len items = 0) as -> by (unfold len in *; lia).
    symmetry. apply Z.div_small. lia.
Qed.

Lemma chunked_concat (items : list string) (size : Z) chunks :
  0 < size → chunked items size = Ret chunks → concat chunks = items.
Proof.
  intros Hs Hch. rewrite chunked_blocks in Hch by done. injection Hch as <-.
  pose proof (range_len_pos (len items) size Hs ltac:(unfold len; lia))
    as (Hk0 & _ & Hhi & _).
  unfold blocks. rewrite concat_blocks. apply take_ge. unfold len in *. nia.
Qed.

(** Every chunk holds symbols of the list only, whatever the size. *)
Lemma chunked_elem (items : list string) (size : Z) chunks b s :
  chunked items size = Ret chunks → b ∈ chunks → s ∈ b → s ∈ items.
Proof.
  unfold chunked. destruct (range _ _ _) as [starts| |]; [|done..].
  intros [= <-] Hb Hs. apply list_elem_of_fmap in Hb as (start & -> & _).
  unfold slice in Hs. by apply subseteq_take, subseteq_drop in Hs.
Qed.

(** X1. For a positive [size] the number of chunks is [len(items)]
    divided by [size], rounded up. *)
Theorem chunked_count (items : list string) (size : Z) :
  0 < size →
  ∃ chunks, chunked items size = Ret chunks
            ∧ len chunks = (len items + size - 1) / size.
Proof.
  intros Hs. eexists. split; [by apply chunked_blocks|].
  apply chunked_len; [done|]. by apply chunked_blocks.
Qed.

Lemma chunked_count_witness :
  0 < 50
  ∧ ∃ chunks, chunked (replicate 120 "S"%string) 50 = Ret chunks
              ∧ len chunks = (len (replicate 120 "S"%string) + 50 - 1) / 50.
Proof.
  split; [lia|]. apply (chunked_count (replicate 120 "S"%string) 50). lia.
Defined.

(** X2. For a positive [size], element [j] of chunk [i] is element
    [i * size + j] of [items]: the chunks are consecutive, non-overlapping
    windows of the list. *)
Theorem chunked_position (items : list string) (size : Z) (chunks : list (list string))
    (i j : nat) (c : list string) :
  0 < size →
  chunked items size = Ret chunks →
  chunks !! i = Some c →
  (j < Z.to_nat size)%nat →
  c !! j = items !! (i * Z.to_nat size + j)%nat.
Proof.
  intros Hs Hch Hi Hj. rewrite chunked_blocks in Hch by done.
  injection Hch as <-. apply blocks_lookup in Hi as [_ ->].
  by rewrite lookup_take_lt, lookup_drop.
Qed.

Lemma chunked_position_witness :
  0 < 2
  ∧ chunked ["A"; "B"; "C"]%string 2 = Ret [["A"; "B"]; ["C"]]%string
  ∧ ["C"]%string !! 0%nat = ["A"; "B"; "C"]%string !! (1 * Z.to_nat 2 + 0)%nat.
Proof.
  split; [lia|]. split; [reflexivity|].
  apply (chunked_position ["A"; "B"; "C"]%string 2 [["A"; "B"]; ["C"]]%string
           1 0 ["C"]%string); [lia | reflexivity | reflexivity | cbn; lia].
Defined.

(** ** Paginator: caps, failures and the requests made *)

Lemma cap_reached_app max_symbols (l l' : list string) :
  cap_reached max_symbols (l ++ l') = false → cap_reached max_symbols l = false.
Proof.
  destruct max_symbols as [m|]; [|done]. cbn.
  rewrite !Z.leb_gt. unfold len. rewrite length_app. lia.
Qed.

Lemma page_nonempty make_request page_size i :
  page make_request page_size i ≠ [] →
  ∃ response,
    make_request i page_size (Z.of_nat i * page_size) = Replied response
    ∧ page_quotes response = page make_request page_size i.
Proof.
  unfold page. destruct (make_request _ _ _) as [|response]; [done|].
  intros _. by exists response.
Qed.

Lemma collected_S make_request page_size call k :
  collected make_request page_size call (S k)
  = new_symbols (page make_request page_size call)
    ++ collected make_request page_size (S call) k.
Proof.
  unfold collected. cbn [seq map concat]. rewrite Nat.add_0_r. f_equal.
  rewrite <- seq_shift, map_map. f_equal. apply map_ext. intros i.
  by replace (call + S i)%nat with (S call + i)%nat by lia.
Qed.

(** Over [k] full pages, with the cap out of reach, the loop just
    accumulates and moves on. *)
Lemma fetch_loop_advance make_request page_size max_symbols k :
  ∀ call symbols fuel,
    (∀ i, (i < k)%nat →
          page make_request page_size (call + i) ≠ []
          ∧ page_size ≤ len (page make_request page_size (call + i))) →
    cap_reached max_symbols
      (symbols ++ collected make_request page_size call k) = false →
    fetch_loop make_request (k + fuel) call page_size max_symbols symbols
               (Z.of_nat call * page_size)
    = fetch_loop make_request fuel (call + k) page_size max_symbols
        (symbols ++ collected make_request page_size call k)
        (Z.of_nat (call + k) * page_size).
Proof.
  induction k as [|k IH]; intros call symbols fuel Hfull Hcap.
  { unfold collected. cbn. by rewrite app_nil_r, Nat.add_0_r. }
  rewrite collected_S in *. rewrite (assoc_L (++)) in *.
  change (S k + fuel)%nat with (S (k + fuel)). rewrite fetch_loop_step.
  rewrite (cap_reached_app _ symbols _ (cap_reached_app _ _ _ Hcap)).
  destruct (Hfull 0%nat ltac:(lia)) as [Hne Hlen].
  rewrite Nat.add_0_r in Hne, Hlen.
  destruct (page_nonempty _ _ _ Hne) as (response & -> & ->).
  destruct (page make_request page_size call) as [|q quotes] eqn:Hp; [done|].
  cbv zeta. destruct (Z.ltb_spec (len (q :: quotes)) page_size); [lia|].
  replace (Z.of_nat call * page_size + page_size)
    with (Z.of_nat (S call) * page_size) by lia.
  rewrite IH; [by replace (S call + k)%nat with (call + S k)%nat by lia| |done].
  intros i Hi. replace (S call + i)%nat with (call + S i)%nat by lia.
  apply Hfull. lia.
Qed.

(** X3. With a cap that is zero or negative the enumeration returns the
    empty list without making any request: the outcome does not depend
    on the endpoint. *)
Theorem nonpositive_cap (make_request : Screener) (fuel : nat) (page_size m : Z) :
  m ≤ 0 →
  fetch_us_equity_symbols make_request (S fuel) page_size (Some m) = Ret [].
Proof.
  intros Hm. unfold fetch_us_equity_symbols. rewrite fetch_loop_step.
  cbn [cap_reached].
  destruct (Z.leb_spec m (len (@nil string))) as [_|Hlt]; [|unfold len in Hlt; cbn in Hlt; lia].
  unfold slice_to. by rewrite take_nil.
Qed.

Lemma nonpositive_cap_witness :
  -3 ≤ 0
  ∧ fetch_us_equity_symbols (λ _ _ _, Failed) 1 250 (Some (-3)) = Ret [].
Proof. split; [lia|]. apply (nonpositive_cap (λ _ _ _, Failed) 0 250 (-3)). lia. Defined.

Lemma fetch_loop_two_caps make_request page_size m m' fuel call symbols offset s' :
  m ≤ m' →
  fetch_loop make_request fuel call page_size (Some m') symbols offset = Ret s' →
  ∃ s, fetch_loop make_request fuel call page_size (Some m) symbols offset = Ret s
       ∧ (s = s' ∨ (m ≤ len s ∧ ∃ rest, s' = s ++ rest)).
Proof.
  intros Hle. revert call symbols offset.
  induction fuel as [|fuel IH]; intros call symbols offset Hrun; [done|].
  pose proof (fetch_loop_extends _ _ _ _ _ _ _ _ Hrun) as Hext.
  rewrite fetch_loop_step in Hrun. rewrite fetch_loop_step.
  cbn [cap_reached] in *.
  destruct (Z.leb_spec m (len symbols)) as [Hcap|Hcap]; [by eauto|].
  destruct (Z.leb_spec m' (len symbols)) as [Hcap'|Hcap']; [lia|].
  destruct (make_request _ _ _) as [|response]; [done|].
  destruct (page_quotes response) as [|q quotes]; [by eauto|]. cbv zeta in *.
  destruct (_ <? _); [by eauto|].
  by apply IH.
Qed.

(** X4. Caps compose: for [0 <= m <= m'], what the enumeration returns
    under the cap [m] is the first [m] items of what it returns under the
    cap [m']. *)
Theorem cap_monotone (make_request : Screener) (fuel : nat)
    (page_size m m' : Z) (r' : list string) :
  0 ≤ m ≤ m' →
  fetch_us_equity_symbols make_request fuel page_size (Some m') = Ret r' →
  fetch_us_equity_symbols make_request fuel page_size (Some m)
  = Ret (take (Z.to_nat m) r').
Proof.
  intros Hm. unfold fetch_us_equity_symbols.
  destruct (fetch_loop _ _ _ _ (Some m') _ _) as [s'| |] eqn:Hloop; [|done..].
  intros [= <-].
  apply (fetch_loop_two_caps _ _ m) in Hloop as (s & -> & Hs); [|lia].
  f_equal. rewrite !slice_to_nonneg by lia.
  rewrite take_take, Nat.min_l by lia.
  destruct Hs as [->|[Hlen [rest ->]]]; [done|].
  rewrite take_app_le; [done|]. unfold len in Hlen. lia.
Qed.

Lemma cap_monotone_witness :
  0 ≤ 1 ≤ 2
  ∧ fetch_us_equity_symbols two_pages 5 2 (Some 2) = Ret ["A"; "B"]%string
  ∧ fetch_us_equity_symbols two_pages 5 2 (Some 1)
    = Ret (take (Z.to_nat 1) ["A"; "B"]%string).
Proof.
  split; [lia|]. split; [reflexivity|].
  apply (cap_monotone two_pages 5 2 1 2); [lia | reflexivity].
Defined.

(** X5. A request that fails aborts the enumeration: if pages [0] to
    [k - 1] are full, the cap is not reached by what they contribute, and
    request [k] fails, the call raises and returns none of the symbols
    collected so far. *)
Theorem transport_failure_aborts (make_request : Screener) (page_size : Z)
    (max_symbols : option Z) (k fuel : nat) :
  (∀ i, (i < k)%nat →
        page make_request page_size i ≠ []
        ∧ page_size ≤ len (page make_request page_size i)) →
  cap_reached max_symbols (collected make_request page_size 0 k) = false →
  make_request k page_size (Z.of_nat k * page_size) = Failed →
  (k < fuel)%nat →
  fetch_us_equity_symbols make_request fuel page_size max_symbols
  = Raise TransportError.
Proof.
  intros Hfull Hcap Hfail Hfuel. unfold fetch_us_equity_symbols.
  replace fuel with (k + S (fuel - S k))%nat by lia.
  change 0 with (Z.of_nat 0 * page_size).
  rewrite fetch_loop_advance; [|done..].
  rewrite fetch_loop_step. cbn [app Nat.add].
  by rewrite Hcap, Hfail.
Qed.

Lemma transport_failure_aborts_witness :
  fetch_us_equity_symbols
    (λ n _ _, match n with
              | O => page_reply [quote_of "A"; quote_of "B"]
              | _ => Failed
              end) 7 2 (Some 5)
  = Raise TransportError.
Proof.
  apply (transport_failure_aborts _ 2 (Some 5) 1 7);
    [|reflexivity|reflexivity|lia].
  intros i Hi. assert (i = 0%nat) as -> by lia.
  split; [discriminate | vm_compute; discriminate].
Defined.

(** X6. The [i]-th request of an enumeration carries the page size and
    the offset [i * page_size], and nothing else is asked of the
    endpoint: two endpoints that agree on these requests give the same
    outcome. *)
Theorem requests_made (make_request make_request' : Screener) (fuel : nat)
    (page_size : Z) (max_symbols : option Z) :
  (∀ i, (i < fuel)%nat →
        make_request i page_size (Z.of_nat i * page_size)
        = make_request' i page_size (Z.of_nat i * page_size)) →
  fetch_us_equity_symbols make_request fuel page_size max_symbols
  = fetch_us_equity_symbols make_request' fuel page_size max_symbols.
Proof.
  intros Hagree. unfold fetch_us_equity_symbols.
  enough (Hloop : ∀ call symbols,
    (∀ i, (i < fuel)%nat →
          make_request (call + i)%nat page_size (Z.of_nat (call + i) * page_size)
          = make_request' (call + i)%nat page_size
              (Z.of_nat (call + i) * page_size)) →
    fetch_loop make_request fuel call page_size max_symbols symbols
               (Z.of_nat call * page_size)
    = fetch_loop make_request' fuel call page_size max_symbols symbols
                 (Z.of_nat call * page_size)).
  { change 0 with (Z.of_nat 0 * page_size). by rewrite Hloop. }
  clear Hagree. induction fuel as [|fuel IH]; intros call symbols Hagree; [done|].
  rewrite !fetch_loop_step.
  specialize (Hagree 0%nat ltac:(lia)) as H0. rewrite Nat.add_0_r in H0.
  rewrite <- H0.
  destruct (cap_reached _ _); [done|].
  destruct (make_request _ _ _) as [|response]; [done|].
  destruct (page_quotes response) as [|q quotes]; [done|]. cbv zeta.
  destruct (_ <? _); [done|].
  replace (Z.of_nat call * page_size + page_size)
    with (Z.of_nat (S call) * page_size) by lia.
  apply IH. intros i Hi.
  replace (S call + i)%nat with (call + S i)%nat by lia.
  apply Hagree. lia.
Qed.

Lemma requests_made_witness :
  fetch_us_equity_symbols two_pages 4 2 None
  = fetch_us_equity_symbols (λ n size offset,
        if (size =? 2) && (offset =? Z.of_nat n * 2)
        then two_pages n size offset else Failed) 4 2 None.
Proof.
  apply (requests_made two_pages _ 4 2 None).
  intros i _. rewrite !Z.eqb_refl. reflexivity.
Defined.

(** X7. With a page size that is zero or negative no page counts as
    short: without a cap, as long as the endpoint keeps returning
    non-empty pages the loop never ends. *)
Theorem nonpositive_page_size_loops (make_request : Screener) (page_size : Z)
    (fuel : nat) :
  page_size ≤ 0 →
  (∀ i, page make_request page_size i ≠ []) →
  fetch_us_equity_symbols make_request fuel page_size None = Diverged.
Proof.
  intros Hps Hpages. unfold fetch_us_equity_symbols.
  replace fuel with (fuel + 0)%nat by lia.
  change 0 with (Z.of_nat 0 * page_size).
  rewrite fetch_loop_advance; [done| |done].
  intros i _. split; [apply Hpages|]. unfold len. lia.
Qed.

Lemma nonpositive_page_size_loops_witness :
  0 ≤ 0
  ∧ fetch_us_equity_symbols (λ _ _ _, page_reply [quote_of "A"]) 1000 0 None
    = Diverged.
Proof.
  split; [lia|].
  apply (nonpositive_page_size_loops (λ _ _ _, page_reply [quote_of "A"]) 0 1000);
    [lia | discriminate].
Defined.

(** X8. The cap alone bounds the enumeration: if every reply brings at
    least one symbol, then for a cap [m >= 0] the call returns within
    [m + 1] iterations, however long the upstream sequence is. *)
Theorem cap_bounds_enumeration (make_request : Screener) (page_size m : Z) :
  0 ≤ m →
  (∀ i offset, ∃ response,
      make_request i page_size offset = Replied response
      ∧ new_symbols (page_quotes response) ≠ []) →
  ∃ r, len r ≤ m
       ∧ ∀ fuel, (Z.to_nat m < fuel)%nat →
           fetch_us_equity_symbols make_request fuel page_size (Some m) = Ret r.
Proof.
  intros Hm Hreply.
  assert (Hloop : ∀ n call symbols offset,
    (Z.to_nat (m - len symbols) ≤ n)%nat →
    ∃ s, fetch_loop make_request (S n) call page_size (Some m) symbols offset
         = Ret s).
  { induction n as [|n IH]; intros call symbols offset Hn;
      rewrite fetch_loop_step; cbn [cap_reached];
      (destruct (Z.leb_spec m (len symbols)) as [Hcap|Hcap]; [by eauto|]);
      [lia|].
    destruct (Hreply call offset) as (response & -> & Hnew).
    destruct (page_quotes response) as [|q quotes] eqn:Hq; [done|]. cbv zeta.
    destruct (_ <? _); [by eauto|].
    apply IH. unfold len in *. rewrite length_app.
    destruct (new_symbols (q :: quotes)); [done|]. cbn [length]. lia. }
  destruct (Hloop (Z.to_nat m) 0%nat [] 0 ltac:(unfold len; cbn; lia)) as [s Hs].
  exists (slice_to s m). split; [by apply slice_to_length|].
  intros fuel Hfuel. unfold fetch_us_equity_symbols.
  by rewrite (fetch_loop_fuel_mono make_request page_size (S (Z.to_nat m)) fuel
                0 (Some m) [] 0 _ Hs ltac:(done) ltac:(lia)).
Qed.

Lemma cap_bounds_enumeration_witness :
  0 ≤ 3
  ∧ ∃ r, len r ≤ 3
         ∧ ∀ fuel, (Z.to_nat 3 < fuel)%nat →
             fetch_us_equity_symbols (λ _ _ _, page_reply [quote_of "A"; quote_of "B"])
               fuel 2 (Some 3) = Ret r.
Proof.
  split; [lia|].
  apply (cap_bounds_enumeration (λ _ _ _, page_reply [quote_of "A"; quote_of "B"])
           2 3); [lia|].
  intros i offset. eexists. split; [reflexivity | discriminate].
Defined.

(** ** Orchestrator: the run over all chunks *)

Section RunFacts.
Variables (get_modules : DetailEndpoint) (utcnow : Clock) (rejects : Rejects).
Variable modules : list string.
Local Abbreviation run := (run_batches get_modules utcnow rejects modules).
Local Abbreviation one := (upsert_batch get_modules utcnow rejects modules).

(** The two ways a batch can go. *)
Lemma upsert_batch_cases b w :
  (get_modules (fetch_calls w) b modules = None
   ∧ one b w = ({| coll := coll w; fetch_calls := S (fetch_calls w);
                   clock_reads := clock_reads w |}, Raise TransportError))
  ∨ (∃ data,
       get_modules (fetch_calls w) b modules = Some data
       ∧ one b w
         = ({| coll := fst (write_batch rejects (coll w) b data
                              (utcnow (clock_reads w)));
               fetch_calls := S (fetch_calls w);
               clock_reads := S (clock_reads w) |},
            snd (write_batch rejects (coll w) b data (utcnow (clock_reads w))))).
Proof.
  unfold upsert_batch.
  destruct (get_modules _ _ _) as [data|]; [right|left; done].
  exists data. split; [done|]. by destruct (write_batch _ _ _ _ _).
Qed.

(** A property of the collection that every batch write keeps is kept
    by the run. *)
Lemma run_batches_inv (P : Collection → Prop) batches w :
  P (coll w) →
  (∀ c b data t, b ∈ batches → P c →
                 P (fst (write_batch rejects c b data t))) →
  P (coll (fst (run batches w))).
Proof.
  revert w. induction batches as [|b batches IH]; intros w Hw Hstep; [done|].
  cbn [run_batches].
  assert (Hone : P (coll (fst (one b w)))).
  { destruct (upsert_batch_cases b w) as [[_ ->]|(data & _ & ->)]; [done|].
    cbn [fst coll]. apply Hstep; [by left | done]. }
  destruct (one b w) as [w1 [[]| |]]; [|done..].
  apply IH; [done|]. intros c b' data t Hb'. apply Hstep. by right.
Qed.

Lemma write_batch_keeps_keyed c b data t s :
  docs_keyed s c ≠ [] → docs_keyed s (fst (write_batch rejects c b data t)) ≠ [].
Proof.
  rewrite write_batch_store. revert c.
  induction b as [|s0 b IH]; intros c Hc; [done|].
  rewrite exec_cons. destruct (rejects _); [by apply IH|].
  apply IH. rewrite docs_keyed_apply.
  destruct (decide (s = s0)) as [->|]; [|done].
  by destruct (docs_keyed s0 c).
Qed.

Lemma run_covers batches w s :
  snd (run batches w) = Ret tt → s ∈ concat batches →
  docs_keyed s (coll (fst (run batches w))) ≠ [].
Proof.
  revert w. induction batches as [|b batches IH]; intros w Hret Hs.
  { by apply elem_of_nil in Hs. }
  cbn [run_batches concat] in *.
  destruct (upsert_batch_cases b w) as [[_ Hone]|(data & _ & Hone)];
    rewrite Hone in *; [done|].
  destruct (snd (write_batch _ _ _ _ _)) as [[]| |] eqn:Hout; [|done..].
  apply elem_of_app in Hs as [Hs|Hs]; [|by apply IH].
  apply (run_batches_inv (λ c, docs_keyed s c ≠ [])).
  - cbn [coll]. rewrite write_batch_store.
    pose proof (write_batch_accepts _ _ _ _ _ Hout s Hs) as Hacc.
    destruct (exec_settles rejects data _ b s (coll w) Hs Hacc) as (d & Hd & _).
    unfold find_doc in Hd. change (filter_symbol _) with s in Hd.
    by destruct (docs_keyed s _).
  - intros c b' data' t _. apply write_batch_keeps_keyed.
Qed.

Lemma run_counts batches w :
  let w' := fst (run batches w) in
  (fetch_calls w' ≤ fetch_calls w + length batches)%nat
  ∧ (fetch_calls w ≤ fetch_calls w')%nat
  ∧ (clock_reads w ≤ clock_reads w')%nat
  ∧ (clock_reads w' - clock_reads w ≤ fetch_calls w' - fetch_calls w)%nat
  ∧ (snd (run batches w) = Ret tt →
     fetch_calls w' = (fetch_calls w + length batches)%nat
     ∧ clock_reads w' = (clock_reads w + length batches)%nat).
Proof.
  cbv zeta. revert w. induction batches as [|b batches IH]; intros w.
  { cbn. repeat split; lia. }
  cbn [run_batches length].
  destruct (upsert_batch_cases b w) as [[_ ->]|(data & _ & ->)].
  { cbn. repeat split; (lia || done). }
  destruct (snd (write_batch _ _ _ _ _)) as [[]| |].
  - specialize (IH {| coll := fst (write_batch rejects (coll w) b data
                                     (utcnow (clock_reads w)));
                      fetch_calls := S (fetch_calls w);
                      clock_reads := S (clock_reads w) |}).
    cbn [fetch_calls clock_reads] in IH.
    destruct IH as (H1 & H2 & H3 & H4 & H5).
    do 4 (split; [lia|]).
    intros Hret. destruct (H5 Hret). split; lia.
  - cbn. repeat split; (lia || done).
  - cbn. repeat split; (lia || done).
Qed.

Lemma run_outcome batches w :
  snd (run batches w) = Ret tt
  ∨ snd (run batches w) = Raise TransportError
  ∨ ∃ n, snd (run batches w) = Raise (BulkWriteError (S n)).
Proof.
  revert w. induction batches as [|b batches IH]; intros w; [by left|].
  cbn [run_batches].
  destruct (upsert_batch_cases b w) as [[_ ->]|(data & _ & ->)];
    [by right; left|].
  rewrite write_batch_outcome.
  destruct (length _) as [|n]; [apply IH|].
  right; right. by exists n.
Qed.

Lemma run_requests (get_modules' : DetailEndpoint) batches w :
  (∀ k b, batches !! k = Some b →
          get_modules (fetch_calls w + k)%nat b modules
          = get_modules' (fetch_calls w + k)%nat b modules) →
  run batches w = run_batches get_modules' utcnow rejects modules batches w.
Proof.
  revert w. induction batches as [|b batches IH]; intros w Hagree; [done|].
  cbn [run_batches].
  assert (Hone : one b w = upsert_batch get_modules' utcnow rejects modules b w).
  { unfold upsert_batch.
    specialize (Hagree 0%nat b eq_refl). rewrite Nat.add_0_r in Hagree.
    by rewrite Hagree. }
  rewrite <- Hone.
  destruct (upsert_batch_cases b w) as [[_ ->]|(data & _ & ->)]; [done|].
  destruct (snd (write_batch _ _ _ _ _)) as [[]| |]; [|done..].
  apply IH. cbn [fetch_calls]. intros k b' Hk.
  replace (S (fetch_calls w) + k)%nat with (fetch_calls w + S k)%nat by lia.
  by apply Hagree.
Qed.
End RunFacts.


(** X9. A batch size that is not positive never reaches the store. With
    zero the call raises at once ([ZeroDivisionError] when there are
    symbols, [ValueError] when there are none); with a negative size it
    returns normally, although no detail was requested and nothing was
    written for the symbols it was given. *)
Theorem nonpositive_batch_size (get_modules : DetailEndpoint) (utcnow : Clock)
    (rejects : Rejects) (w : World) (symbols modules : list string)
    (batch_size : Z) :
  batch_size ≤ 0 →
  upsert_company_data get_modules utcnow rejects w symbols modules batch_size
  = (w, if batch_size =? 0
        then Raise (match symbols with
                    | [] => ValueError
                    | _ :: _ => ZeroDivisionError
                    end)
        else Ret tt).
Proof.
  intros Hbs. unfold upsert_company_data.
  destruct (Z.eqb_spec batch_size 0) as [->|Hne].
  - by destruct symbols.
  - assert (Hch : chunked symbols batch_size = Ret []).
    { unfold chunked, range, range_len.
      destruct (Z.eqb_spec batch_size 0); [done|].
      destruct (Z.ltb_spec 0 batch_size); [lia|].
      destruct (Z.ltb_spec batch_size 0); [|lia].
      destruct (Z.ltb_spec (len symbols) 0); [unfold len in *; lia|]. done. }
    rewrite Hch. by destruct symbols.
Qed.

Lemma nonpositive_batch_size_witness :
  -50 ≤ 0
  ∧ upsert_company_data always_AC tick accept_all fresh_world
      ["A"; "B"]%string DEFAULT_MODULES (-50)
    = (fresh_world, Ret tt).
Proof.
  split; [lia|].
  apply (nonpositive_batch_size always_AC tick accept_all fresh_world
           ["A"; "B"]%string DEFAULT_MODULES (-50)). lia.
Defined.

(** X10. For a positive batch size the run makes one detail request per
    chunk and reads the clock once per answered request: at most
    [ceil(len(symbols) / batch_size)] requests, never more clock readings
    than requests, and exactly that many of both when the run returns
    normally. *)
Theorem request_accounting (get_modules : DetailEndpoint) (utcnow : Clock)
    (rejects : Rejects) (w : World) (symbols modules : list string)
    (batch_size : Z) :
  0 < batch_size →
  let result :=
    upsert_company_data get_modules utcnow rejects w symbols modules batch_size in
  let chunks := Z.to_nat ((len symbols + batch_size - 1) / batch_size) in
  (fetch_calls w ≤ fetch_calls (fst result) ≤ fetch_calls w + chunks)%nat
  ∧ (clock_reads w ≤ clock_reads (fst result))%nat
  ∧ (clock_reads (fst result) - clock_reads w
     ≤ fetch_calls (fst result) - fetch_calls w)%nat
  ∧ (snd result = Ret tt →
     fetch_calls (fst result) = (fetch_calls w + chunks)%nat
     ∧ clock_reads (fst result) = (clock_reads w + chunks)%nat).
Proof.
  intros Hbs. cbv zeta.
  destruct (chunked symbols batch_size) as [batches| |] eqn:Hch;
    [|by rewrite chunked_blocks in Hch..].
  rewrite (upsert_company_data_chunks _ _ _ _ _ _ _ _ Hch).
  rewrite <- (chunked_len symbols batch_size batches Hbs Hch).
  replace (Z.to_nat (len batches)) with (length batches)
    by (unfold len; by rewrite Nat2Z.id).
  pose proof (run_counts get_modules utcnow rejects modules batches w)
    as (H1 & H2 & H3 & H4 & H5).
  split; [lia|]. split; [done|]. split; [done|]. done.
Qed.

Lemma request_accounting_witness :
  0 < 2
  ∧ fetch_calls (fst (upsert_company_data always_AC tick accept_all fresh_world
                        ["A"; "B"; "C"]%string [] 2))
    = (fetch_calls fresh_world
       + Z.to_nat ((len ["A"; "B"; "C"]%string + 2 - 1) / 2))%nat
  ∧ clock_reads (fst (upsert_company_data always_AC tick accept_all fresh_world
                        ["A"; "B"; "C"]%string [] 2))
    = (clock_reads fresh_world
       + Z.to_nat ((len ["A"; "B"; "C"]%string + 2 - 1) / 2))%nat.
Proof.
  split; [lia|].
  apply (proj2 (proj2 (proj2
           (request_accounting always_AC tick accept_all fresh_world
              ["A"; "B"; "C"]%string [] 2 ltac:(lia))))).
  vm_compute. reflexivity.
Defined.

Lemma upsert_company_data_covers (get_modules : DetailEndpoint) (utcnow : Clock)
    (rejects : Rejects) (w w' : World) (symbols modules : list string)
    (batch_size : Z) :
  0 < batch_size →
  unique_index (coll w) →
  upsert_company_data get_modules utcnow rejects w symbols modules batch_size
  = (w', Ret tt) →
  ∀ s, s ∈ symbols →
    ∃ d, docs_keyed s (coll w') = [d] ∧ d !! "symbol"%string = Some (VStr s).
Proof.
  intros Hbs Hu Hrun s Hs.
  destruct (chunked symbols batch_size) as [batches| |] eqn:Hch;
    [|by rewrite chunked_blocks in Hch..].
  rewrite (upsert_company_data_chunks _ _ _ _ _ _ _ _ Hch) in Hrun.
  rewrite <- (chunked_concat _ _ _ Hbs Hch) in Hs.
  pose proof (run_covers get_modules utcnow rejects modules batches w s) as Hcov.
  pose proof (run_batches_inv get_modules utcnow rejects modules
                unique_index batches w Hu) as Huniq.
  rewrite Hrun in Hcov, Huniq. cbn [fst snd] in Hcov, Huniq.
  specialize (Hcov eq_refl Hs).
  specialize (Huniq ltac:(intros c b data t _ Hc; rewrite write_batch_store;
                          by apply exec_unique) s).
  destruct (docs_keyed s (coll w')) as [|d [|d' rest]] eqn:Hk;
    [done| |cbn in Huniq; lia].
  exists d. split; [done|].
  assert (Hin : d ∈ docs_keyed s (coll w')) by (rewrite Hk; by left).
  unfold docs_keyed in Hin. apply list_elem_of_filter in Hin as [Hm _].
  by apply matches_true.
Qed.

(** X11. A run with a positive batch size that returns normally, on a
    collection with the unique index, leaves exactly one document keyed
    by each of the symbols it was given, in whichever chunk the symbol
    was. *)
Theorem whole_run_coverage (get_modules : DetailEndpoint) (utcnow : Clock)
    (rejects : Rejects) (w w' : World) (symbols modules : list string)
    (batch_size : Z) :
  0 < batch_size →
  unique_index (coll w) →
  upsert_company_data get_modules utcnow rejects w symbols modules batch_size
  = (w', Ret tt) →
  ∀ s, s ∈ symbols →
    ∃ d, docs_keyed s (coll w') = [d] ∧ d !! "symbol"%string = Some (VStr s).
Proof.
  intros Hbs Hu Hrun s Hs.
  destruct (chunked symbols batch_size) as [batches| |] eqn:Hch;
    [|by rewrite chunked_blocks in Hch..].
  rewrite (upsert_company_data_chunks _ _ _ _ _ _ _ _ Hch) in Hrun.
  rewrite <- (chunked_concat _ _ _ Hbs Hch) in Hs.
  pose proof (run_covers get_modules utcnow rejects modules batches w s) as Hcov.
  pose proof (run_batches_inv get_modules utcnow rejects modules
                unique_index batches w Hu) as Huniq.
  rewrite Hrun in Hcov, Huniq. cbn [fst snd] in Hcov, Huniq.
  specialize (Hcov eq_refl Hs).
  specialize (Huniq ltac:(intros c b data t _ Hc; rewrite write_batch_store;
                          by apply exec_unique) s).
  destruct (docs_keyed s (coll w')) as [|d [|d' rest]] eqn:Hk;
    [done| |cbn in Huniq; lia].
  exists d. split; [done|].
  assert (Hin : d ∈ docs_keyed s (coll w')) by (rewrite Hk; by left).
  unfold docs_keyed in Hin. apply list_elem_of_filter in Hin as [Hm _].
  by apply matches_true.
Qed.

Lemma whole_run_coverage_witness :
  "C"%string ∈ ["A"; "B"; "C"]%string
  ∧ ∃ d, docs_keyed "C"
           (coll (fst (upsert_company_data always_AC tick accept_all fresh_world
                         ["A"; "B"; "C"]%string [] 2))) = [d]
         ∧ d !! "symbol"%string = Some (VStr "C").
Proof.
  assert (Hin : "C"%string ∈ ["A"; "B"; "C"]%string) by (do 2 right; left).
  split; [exact Hin|].
  apply (whole_run_coverage always_AC tick accept_all fresh_world
           (fst (upsert_company_data always_AC tick accept_all fresh_world
                   ["A"; "B"; "C"]%string [] 2))
           ["A"; "B"; "C"]%string [] 2);
    [lia | apply unique_index_empty | vm_compute; reflexivity | exact Hin].
Defined.

(** X12. Whatever its outcome, a run removes no document and moves none:
    every document stays at its position and keeps all fields other than
    [symbol], [last_updated] and [data]; a document that is not keyed by
    one of the symbols of the run is left exactly as it was. *)
Theorem whole_run_frame (get_modules : DetailEndpoint) (utcnow : Clock)
    (rejects : Rejects) (w : World) (symbols modules : list string)
    (batch_size : Z) (i : nat) (d : Document) :
  docs (coll w) !! i = Some d →
  ∃ d',
    docs (coll (fst (upsert_company_data get_modules utcnow rejects w
                       symbols modules batch_size))) !! i = Some d'
    ∧ (∀ k, k ∉ written_fields → d' !! k = d !! k)
    ∧ ((∀ s, s ∈ symbols → matches s d = false) → d' = d).
Proof.
  intros Hi.
  assert (Hsame : ∃ d', docs (coll w) !! i = Some d'
            ∧ (∀ k, k ∉ written_fields → d' !! k = d !! k)
            ∧ ((∀ s, s ∈ symbols → matches s d = false) → d' = d))
    by (by exists d).
  unfold upsert_company_data.
  destruct (chunked symbols batch_size) as [batches|e|] eqn:Hch;
    [|by destruct symbols, (batch_size =? 0)..].
  assert (Hrun : ∃ d',
    docs (coll (fst (run_batches get_modules utcnow rejects modules batches w)))
      !! i = Some d'
    ∧ (∀ k, k ∉ written_fields → d' !! k = d !! k)
    ∧ ((∀ s, s ∈ symbols → matches s d = false) → d' = d)).
  { apply (run_batches_inv get_modules utcnow rejects modules
             (λ c, ∃ d', docs c !! i = Some d'
                ∧ (∀ k, k ∉ written_fields → d' !! k = d !! k)
                ∧ ((∀ s, s ∈ symbols → matches s d = false) → d' = d)));
      [done|].
    intros c b data t Hb (d1 & Hd1 & Hf1 & Hs1). rewrite write_batch_store.
    destruct (exec_lookup rejects data t b c i d1 Hd1) as (d2 & Hd2 & Hf2 & Hs2).
    exists d2. split; [done|]. split.
    - intros k Hk. by rewrite Hf2, Hf1.
    - intros Hall. rewrite Hs2; [by apply Hs1|].
      rewrite (Hs1 Hall). intros s Hs. apply Hall.
      by apply (chunked_elem symbols batch_size batches b). }
  by destruct symbols, (batch_size =? 0).
Qed.

Lemma whole_run_frame_witness :
  docs annotated_collection !! 0%nat = Some annotated_A
  ∧ ∃ d',
      docs (coll (fst (upsert_company_data always_AC tick accept_all
                         {| coll := annotated_collection; fetch_calls := 0;
                            clock_reads := 0 |}
                         ["A"; "B"]%string [] 1))) !! 0%nat = Some d'
      ∧ (∀ k, k ∉ written_fields → d' !! k = annotated_A !! k)
      ∧ ((∀ s, s ∈ ["A"; "B"]%string → matches s annotated_A = false) →
         d' = annotated_A).
Proof.
  split; [reflexivity|].
  apply (whole_run_frame always_AC tick accept_all
           {| coll := annotated_collection; fetch_calls := 0; clock_reads := 0 |}
           ["A"; "B"]%string [] 1 0 annotated_A).
  reflexivity.
Defined.

(** X13. The run keeps the unique index: whatever its inputs and its
    outcome, it never leaves two documents keyed by the same symbol in a
    collection that had none. *)
Theorem whole_run_unique (get_modules : DetailEndpoint) (utcnow : Clock)
    (rejects : Rejects) (w : World) (symbols modules : list string)
    (batch_size : Z) :
  unique_index (coll w) →
  unique_index
    (coll (fst (upsert_company_data get_modules utcnow rejects w symbols
                  modules batch_size))).
Proof.
  intros Hu. unfold upsert_company_data.
  destruct (chunked symbols batch_size) as [batches|e|] eqn:Hch;
    [|by destruct symbols, (batch_size =? 0)..].
  assert (Hrun : unique_index
    (coll (fst (run_batches get_modules utcnow rejects modules batches w)))).
  { apply (run_batches_inv get_modules utcnow rejects modules unique_index);
      [done|].
    intros c b data t _ Hc. rewrite write_batch_store. by apply exec_unique. }
  by destruct symbols, (batch_size =? 0).
Qed.

Lemma whole_run_unique_witness :
  unique_index
    (coll (fst (upsert_company_data always_AC tick reject_A fresh_world
                  ["A"; "B"; "B"; "C"]%string [] 3))).
Proof.
  apply (whole_run_unique always_AC tick reject_A fresh_world
           ["A"; "B"; "B"; "C"]%string [] 3).
  apply unique_index_empty.
Defined.

(** X15. The [k]-th detail request of a run asks for the symbols of the
    [k]-th chunk and for the modules given, and the detail endpoint is
    asked nothing else: two endpoints that agree on these requests give
    the same run. *)
Theorem detail_requests_made (get_modules get_modules' : DetailEndpoint)
    (utcnow : Clock) (rejects : Rejects) (w : World)
    (symbols modules : list string) (batch_size : Z) (batches : list (list string)) :
  chunked symbols batch_size = Ret batches →
  (∀ k b, batches !! k = Some b →
          get_modules (fetch_calls w + k)%nat b modules
          = get_modules' (fetch_calls w + k)%nat b modules) →
  upsert_company_data get_modules utcnow rejects w symbols modules batch_size
  = upsert_company_data get_modules' utcnow rejects w symbols modules batch_size.
Proof.
  intros Hch Hagree.
  rewrite !(upsert_company_data_chunks _ _ _ _ _ _ _ _ Hch).
  by apply run_requests.
Qed.

Lemma detail_requests_made_witness :
  upsert_company_data always_AC tick accept_all fresh_world
    ["A"; "B"; "C"]%string DEFAULT_MODULES 2
  = upsert_company_data
      (λ n symbols modules,
         if bool_decide (([["A"; "B"]; ["C"]]%string : list (list string)) !! n
                         = Some symbols ∧ modules = DEFAULT_MODULES)
         then Some details_AC else None)
      tick accept_all fresh_world ["A"; "B"; "C"]%string DEFAULT_MODULES 2.
Proof.
  apply (detail_requests_made always_AC _ tick accept_all fresh_world
           ["A"; "B"; "C"]%string DEFAULT_MODULES 2
           [["A"; "B"]; ["C"]]%string); [reflexivity|].
  intros k b Hk. cbn [fetch_calls fresh_world Nat.add].
  by rewrite bool_decide_eq_true_2.
Defined.

(** ** [main]: the module list *)

Section StringFacts.
Import PyStr.

Lemma split_not_nil sep s : split sep s ≠ [].
Proof.
  destruct s as [|c s]; [done|]. cbn [split].
  destruct (Ascii.eqb c sep); [done|]. by destruct (split sep s).
Qed.

Lemma split_no_sep sep s p : p ∈ split sep s → contains sep p = false.
Proof.
  revert p. induction s as [|c s IH]; intros p; cbn [split].
  { intros ->%list_elem_of_singleton. done. }
  destruct (Ascii.eqb c sep) eqn:Hc.
  - intros [->|Hp]%elem_of_cons; [done | by apply IH].
  - pose proof (split_not_nil sep s) as Hne.
    destruct (split sep s) as [|piece pieces]; [done|].
    intros [->|Hp]%elem_of_cons.
    + cbn [contains]. rewrite Hc. cbn. apply IH. by left.
    + apply IH. by right.
Qed.

Lemma split_clean sep x :
  contains sep x = false → split sep x = [x].
Proof.
  induction x as [|c x IH]; [done|]. cbn [contains split].
  intros [Hc Hx]%orb_false_elim. rewrite Hc, IH by done. done.
Qed.

Lemma append_nil s : String.append EmptyString s = s.
Proof. done. Qed.

Lemma append_cons c x s : String.append (String c x) s = String c (String.append x s).
Proof. done. Qed.

Lemma split_append sep x rest :
  contains sep x = false →
  split sep (String.append x (String sep rest)) = x :: split sep rest.
Proof.
  induction x as [|c x IH]; cbn [contains].
  - intros _. rewrite append_nil. cbn [split]. by rewrite Ascii.eqb_refl.
  - intros [Hc Hx]%orb_false_elim. rewrite append_cons. cbn [split].
    rewrite Hc, IH by done. done.
Qed.

Lemma split_join sep l :
  l ≠ [] → Forall (λ p, contains sep p = false) l →
  split sep (join (String sep EmptyString) l) = l.
Proof.
  induction l as [|x l IH]; [done|]. intros _ Hall.
  apply Forall_cons in Hall as [Hx Hl].
  destruct l as [|y l]; [by apply split_clean|].
  change (join (String sep EmptyString) (x :: y :: l))
    with (String.append x (String sep (join (String sep EmptyString) (y :: l)))).
  rewrite split_append by done. f_equal. by apply IH.
Qed.

Lemma lstrip_head s :
  lstrip s = EmptyString
  ∨ ∃ c r, lstrip s = String c r ∧ is_space c = false.
Proof.
  induction s as [|c s IH]; [by left|]. cbn [lstrip].
  destruct (is_space c) eqn:Hc; [done|]. right. by exists c, s.
Qed.

Lemma rstrip_head c s :
  is_space c = false → ∃ r, rstrip (String c s) = String c r.
Proof.
  intros Hc. cbn [rstrip]. rewrite Hc.
  destruct (rstrip s); eauto.
Qed.

Lemma rstrip_rstrip s : rstrip (rstrip s) = rstrip s.
Proof.
  induction s as [|c s IH]; [done|]. cbn [rstrip].
  destruct (rstrip s) as [|c' r] eqn:Hr.
  - destruct (is_space c) eqn:Hc; [done|]. cbn [rstrip]. by rewrite Hc.
  - cbn [rstrip] in *. by rewrite IH.
Qed.

Lemma rstrip_last s p c :
  rstrip s = String.append p (String c EmptyString) → is_space c = false.
Proof.
  revert p. induction s as [|a s IH]; intros p.
  { by destruct p. }
  cbn [rstrip]. destruct (rstrip s) as [|c' r] eqn:Hr.
  - destruct (is_space a) eqn:Ha; [by destruct p|].
    destruct p as [|x [|y p]]; rewrite ?append_cons, ?append_nil;
      [by intros [= <-] | done | done].
  - destruct p as [|x p]; rewrite ?append_cons, ?append_nil; [done|].
    intros [= _ Heq]. by apply (IH p).
Qed.

Lemma strip_strip s : strip (strip s) = strip s.
Proof.
  unfold strip.
  destruct (lstrip_head s) as [->|(c & r & -> & Hc)]; [done|].
  destruct (rstrip_head c r Hc) as [r' Hr]. rewrite Hr.
  cbn [lstrip]. rewrite Hc. rewrite <- Hr. apply rstrip_rstrip.
Qed.

Lemma strip_first s c r : strip s = String c r → is_space c = false.
Proof.
  unfold strip.
  destruct (lstrip_head s) as [->|(c0 & r0 & -> & Hc)]; [done|].
  destruct (rstrip_head c0 r0 Hc) as [r' ->]. by intros [= <- _].
Qed.

Lemma lstrip_contains c s : contains c s = false → contains c (lstrip s) = false.
Proof.
  induction s as [|a s IH]; [done|]. cbn [lstrip].
  destruct (is_space a); [|done]. cbn [contains].
  intros [_ Hs]%orb_false_elim. by apply IH.
Qed.

Lemma rstrip_contains c s : contains c s = false → contains c (rstrip s) = false.
Proof.
  induction s as [|a s IH]; [done|]. cbn [contains rstrip].
  intros [Ha Hs]%orb_false_elim. specialize (IH Hs).
  destruct (rstrip s) as [|c' r].
  - destruct (is_space a); [done|]. cbn. by rewrite Ha.
  - cbn [contains] in *. by rewrite Ha, IH.
Qed.

Lemma parse_modules_elem arg m :
  m ∈ parse_modules arg →
  m ≠ EmptyString ∧ strip m = m ∧ contains ","%char m = false.
Proof.
  unfold parse_modules. intros (piece & -> & Hp)%list_elem_of_fmap.
  apply list_elem_of_filter in Hp as [Hne Hp].
  split; [done|]. split; [apply strip_strip|].
  unfold strip. apply rstrip_contains, lstrip_contains.
  by apply (split_no_sep _ arg).
Qed.

Lemma parse_modules_join l :
  Forall (λ m, m ≠ EmptyString ∧ strip m = m ∧ contains ","%char m = false) l →
  parse_modules (join ","%string l) = l.
Proof.
  intros Hall. unfold parse_modules.
  destruct (decide (l = [])) as [->|Hne]; [done|].
  rewrite split_join; [|done|by eapply Forall_impl; [done|intros m (_&_&?)]].
  induction Hall as [|m l (Hm & Hs & _) Hl IH]; [done|].
  rewrite filter_cons_True by by rewrite Hs.
  rewrite fmap_cons, Hs. f_equal.
  destruct (decide (l = [])) as [->|Hne']; [done|]. by apply IH.
Qed.
End StringFacts.

(** X16. Every module that [main] extracts from the [--modules] argument
    is non-empty, neither begins nor ends with a white-space character,
    and contains no comma; empty and blank items of the argument are
    dropped. *)
Theorem parsed_modules_are_clean (arg m : string) :
  m ∈ parse_modules arg →
  m ≠ EmptyString
  ∧ PyStr.strip m = m
  ∧ (∀ c r, m = String c r → PyStr.is_space c = false)
  ∧ (∀ p c, m = String.append p (String c EmptyString) → PyStr.is_space c = false)
  ∧ PyStr.contains ","%char m = false.
Proof.
  intros Hm. destruct (parse_modules_elem arg m Hm) as (Hne & Hs & Hc).
  split; [done|]. split; [done|]. split; [|split; [|done]].
  - intros c r Heq. apply (strip_first m c r). by rewrite Hs.
  - intros p c Heq. apply (rstrip_last (PyStr.lstrip m) p c).
    fold (PyStr.strip m). by rewrite Hs.
Qed.

Lemma parsed_modules_are_clean_witness :
  parse_modules " price , ,quoteType,,"%string = ["price"; "quoteType"]%string
  ∧ PyStr.strip "price" = "price"%string
  ∧ PyStr.contains ","%char "price" = false.
Proof.
  split; [reflexivity|].
  assert (Hin : "price"%string ∈ parse_modules " price , ,quoteType,,"%string)
    by (vm_compute; left).
  destruct (parsed_modules_are_clean _ _ Hin) as (_ & Hs & _ & _ & Hc).
  split; [exact Hs | exact Hc].
Defined.

(** X17. Joining a list of modules with commas and parsing the result
    gives the list back, provided each module is non-empty, has no
    white space at either end and no comma; this is how the default of
    [--modules] yields [DEFAULT_MODULES]. *)
Theorem parse_join_roundtrip (l : list string) :
  Forall (λ m, m ≠ EmptyString ∧ PyStr.strip m = m
               ∧ PyStr.contains ","%char m = false) l →
  parse_modules (PyStr.join ","%string l) = l.
Proof.
  intros Hall. unfold parse_modules.
  destruct (decide (l = [])) as [->|Hne]; [done|].
  rewrite split_join; [|done|by eapply Forall_impl; [done|intros m (_&_&?)]].
  induction Hall as [|m l (Hm & Hs & _) Hl IH]; [done|].
  rewrite filter_cons_True by by rewrite Hs.
  rewrite fmap_cons, Hs. f_equal.
  destruct (decide (l = [])) as [->|Hne']; [done|]. by apply IH.
Qed.

Lemma parse_join_roundtrip_witness :
  parse_modules (PyStr.join ","%string DEFAULT_MODULES) = DEFAULT_MODULES.
Proof.
  apply (parse_join_roundtrip DEFAULT_MODULES).
  unfold DEFAULT_MODULES. repeat constructor; discriminate.
Defined.

(** X18. Parsing is a normalisation: writing the parsed modules back as a
    comma-separated argument and parsing again changes nothing. *)
Theorem parse_modules_normalises (arg : string) :
  parse_modules (PyStr.join ","%string (parse_modules arg)) = parse_modules arg.
Proof.
  apply parse_modules_join. apply Forall_forall.
  intros m Hm. by apply (parse_modules_elem arg).
Qed.

(** ** [main]: index, enumeration and upsert together *)

Lemma create_index_unique c : create_index c = true → unique_index c.
Proof.
  unfold create_index, unique_index, docs_keyed.
  intros Hnd%bool_decide_eq_true s.
  induction (docs c) as [|d ds IH]; [cbn; lia|].
  rewrite fmap_cons in Hnd. apply NoDup_cons in Hnd as [Hd Hds].
  destruct (matches s d) eqn:Hm.
  - rewrite filter_cons_True by done. cbn [length].
    assert (Hnil : filter (λ d, matches s d = true) ds = []).
    { destruct (filter _ ds) as [|d' rest] eqn:Hf; [done|]. exfalso.
      assert (Hin : d' ∈ filter (λ d, matches s d = true) ds)
        by (rewrite Hf; by left).
      apply list_elem_of_filter in Hin as [Hm' Hd'].
      apply Hd. apply list_elem_of_fmap. exists d'. split; [|done].
      apply matches_true in Hm, Hm'. unfold index_key. congruence. }
    rewrite Hnil. cbn. lia.
  - rewrite filter_cons_False by congruence. by apply IH.
Qed.

(** X19. When [main] returns normally with a positive batch size, the
    enumeration has returned a list of symbols, no longer than a cap
    [m >= 0] if one is set, and the collection holds exactly one document
    keyed by each of them; the index created at the start is what makes
    this hold on any collection. *)
Theorem main_coverage (make_request : Screener) (get_modules : DetailEndpoint)
    (utcnow : Clock) (rejects : Rejects) (fuel : nat) (args : Args)
    (w w' : World) :
  0 < args_batch_size args →
  main make_request get_modules utcnow rejects fuel args w = (w', Exit (Ret tt)) →
  ∃ symbols,
    fetch_us_equity_symbols make_request fuel (args_screener_page_size args)
      (args_max_symbols args) = Ret symbols
    ∧ (∀ m, args_max_symbols args = Some m → 0 ≤ m → len symbols ≤ m)
    ∧ ∀ s, s ∈ symbols →
        ∃ d, docs_keyed s (coll w') = [d]
             ∧ d !! "symbol"%string = Some (VStr s).
Proof.
  intros Hbs. unfold main.
  destruct (create_index (coll w)) eqn:Hidx; [|done].
  apply create_index_unique in Hidx.
  destruct (fetch_us_equity_symbols _ _ _ _) as [symbols| |] eqn:Hfetch;
    [|done..].
  intros Hmain. exists symbols. split; [done|]. split.
  - intros m Hcap Hm. rewrite Hcap in Hfetch.
    unfold fetch_us_equity_symbols in Hfetch.
    destruct (fetch_loop _ _ _ _ _ _ _) as [l| |]; [|done..].
    injection Hfetch as <-. by apply slice_to_length.
  - destruct symbols as [|s0 symbols]; [by intros s ?%elem_of_nil|].
    destruct (upsert_company_data _ _ _ _ _ _ _) as [w1 r] eqn:Hrun.
    injection Hmain as -> ->.
    by apply (upsert_company_data_covers _ _ _ _ _ _ _ _ Hbs Hidx Hrun).
Qed.

Lemma main_coverage_witness :
  0 < args_batch_size default_args
  ∧ ∃ symbols,
      fetch_us_equity_symbols two_pages 5 (args_screener_page_size default_args)
        (args_max_symbols default_args) = Ret symbols
      ∧ (∀ m, args_max_symbols default_args = Some m → 0 ≤ m → len symbols ≤ m)
      ∧ ∀ s, s ∈ symbols →
          ∃ d, docs_keyed s
                 (coll (fst (main two_pages always_AC tick accept_all 5
                               default_args annotated_world))) = [d]
               ∧ d !! "symbol"%string = Some (VStr s).
Proof.
  split; [reflexivity|].
  apply (main_coverage two_pages always_AC tick accept_all 5 default_args
           annotated_world
           (fst (main two_pages always_AC tick accept_all 5 default_args
                   annotated_world)));
    [reflexivity | vm_compute; reflexivity].
Defined.



(** ** What is returned and what is stored *)

(** X21. The result of an enumeration, exactly: if pages [0] to [k - 1]
    are full and page [k] is empty or short, the call returns the symbols
    of pages [0] to [k] in order, cut to the cap [m >= 0] if one is
    set. *)
Theorem enumeration_result (make_request : Screener) (page_size : Z)
    (max_symbols : option Z) (k fuel : nat) :
  (∀ i, (i < k)%nat →
        page make_request page_size i ≠ []
        ∧ page_size ≤ len (page make_request page_size i)) →
  last_page make_request page_size k = true →
  (∀ m, max_symbols = Some m → 0 ≤ m) →
  (k < fuel)%nat →
  fetch_us_equity_symbols make_request fuel page_size max_symbols
  = Ret (match max_symbols with
         | Some m => take (Z.to_nat m) (collected make_request page_size 0 (S k))
         | None => collected make_request page_size 0 (S k)
         end).
Proof.
  intros Hfull Hlast Hcap Hfuel.
  assert (Hnone : fetch_loop make_request fuel 0 page_size None [] 0
                  = Ret (collected make_request page_size 0 (S k))).
  { replace fuel with (k + S (fuel - S k))%nat by lia.
    change 0 with (Z.of_nat 0 * page_size).
    rewrite fetch_loop_advance; [|done..].
    rewrite fetch_loop_step. cbn [app Nat.add cap_reached].
    assert (Hsplit : collected make_request page_size 0 (S k)
              = collected make_request page_size 0 k
                ++ new_symbols (page make_request page_size k)).
    { unfold collected. by rewrite seq_S, map_app, concat_app; cbn;
        rewrite app_nil_r. }
    rewrite Hsplit. unfold last_page, page in *.
    destruct (make_request k page_size _) as [|response]; [done|].
    destruct (page_quotes response) as [|q quotes].
    { cbn. by rewrite app_nil_r. }
    cbv zeta. by rewrite Hlast. }
  unfold fetch_us_equity_symbols.
  destruct max_symbols as [m|]; [|by rewrite Hnone].
  specialize (Hcap m eq_refl).
  destruct (fetch_loop_capped _ _ m _ _ _ _ _ Hnone) as (s & -> & Hs).
  f_equal. rewrite slice_to_nonneg by done.
  destruct Hs as [->|[Hlen [rest ->]]]; [done|].
  rewrite take_app_le; [done|]. unfold len in Hlen. lia.
Qed.

Lemma enumeration_result_witness :
  fetch_us_equity_symbols two_pages 9 2 (Some 2)
  = Ret (take (Z.to_nat 2) (collected two_pages 2 0 2)).
Proof.
  apply (enumeration_result two_pages 2 (Some 2) 1 9);
    [|reflexivity | by intros m [= <-] | lia].
  intros i Hi. assert (i = 0%nat) as -> by lia.
  split; [discriminate | vm_compute; discriminate].
Defined.

Lemma elem_of_concat_2 (ls : list (list string)) l s :
  l ∈ ls → s ∈ l → s ∈ concat ls.
Proof.
  induction ls as [|l0 ls IH]; [by intros ?%elem_of_nil|].
  intros [->|Hl]%elem_of_cons Hs; cbn [concat]; apply elem_of_app; auto.
Qed.

Section StoredContent.
Variables (get_modules : DetailEndpoint) (utcnow : Clock) (rejects : Rejects).
Variable modules : list string.
Local Abbreviation run := (run_batches get_modules utcnow rejects modules).

Lemma write_batch_keyed_other c b data t s :
  s ∉ b →
  docs_keyed s (fst (write_batch rejects c b data t)) = docs_keyed s c.
Proof.
  rewrite write_batch_store. revert c.
  induction b as [|s0 b IH]; intros c Hs; [done|].
  apply not_elem_of_cons in Hs as [Hne Hs].
  rewrite exec_cons. destruct (rejects _); [by apply IH|].
  rewrite IH by done. by rewrite docs_keyed_apply, decide_False.
Qed.

Lemma run_keyed_other batches w s :
  (∀ b, b ∈ batches → s ∉ b) →
  docs_keyed s (coll (fst (run batches w))) = docs_keyed s (coll w).
Proof.
  intros Hs.
  apply (run_batches_inv get_modules utcnow rejects modules
           (λ c, docs_keyed s c = docs_keyed s (coll w))); [done|].
  intros c b data t Hb <-. apply write_batch_keyed_other. by apply Hs.
Qed.

Lemma run_content batches :
  ∀ w w' k b s data,
    NoDup (concat batches) →
    unique_index (coll w) →
    run batches w = (w', Ret tt) →
    batches !! k = Some b → s ∈ b →
    get_modules (fetch_calls w + k)%nat b modules = Some data →
    ∃ d, docs_keyed s (coll w') = [d]
         ∧ d !! "data"%string = Some (VData (symbol_data data s))
         ∧ d !! "last_updated"%string
           = Some (VDate (utcnow (clock_reads w + k)%nat)).
Proof.
  induction batches as [|b0 batches IH];
    intros w w' k b s data Hnd Hu Hrun Hk Hs Hdata; [done|].
  cbn [concat] in Hnd. apply NoDup_app in Hnd as (_ & Hdisj & Hnd').
  cbn [run_batches] in Hrun.
  destruct (upsert_batch_cases get_modules utcnow rejects modules b0 w)
    as [[_ Hone]|(data0 & Hdata0 & Hone)]; rewrite Hone in Hrun; [done|].
  destruct (snd (write_batch _ _ _ _ _)) as [[]| |] eqn:Hout; [|done..].
  destruct k as [|k].
  - injection Hk as ->. rewrite Nat.add_0_r in *.
    rewrite Hdata0 in Hdata. injection Hdata as ->.
    assert (Hlater : docs_keyed s (coll w')
              = docs_keyed s (fst (write_batch rejects (coll w) b data
                                     (utcnow (clock_reads w))))).
    { replace w' with (fst (run batches
        {| coll := fst (write_batch rejects (coll w) b data
                          (utcnow (clock_reads w)));
           fetch_calls := S (fetch_calls w);
           clock_reads := S (clock_reads w) |})) by by rewrite Hrun.
      rewrite run_keyed_other; [done|].
      intros b' Hb' Hs'. apply (Hdisj s Hs).
      by apply (elem_of_concat_2 _ b'). }
    rewrite Hlater, write_batch_store.
    destruct (exec_document rejects data (utcnow (clock_reads w)) b (coll w) s
                Hu Hs (write_batch_accepts _ _ _ _ _ Hout s Hs))
      as (d & H1 & _ & H3 & H4).
    by exists d.
  - cbn in Hk.
    replace (fetch_calls w + S k)%nat with (S (fetch_calls w) + k)%nat
      in Hdata by lia.
    replace (clock_reads w + S k)%nat with (S (clock_reads w) + k)%nat by lia.
    apply (IH {| coll := fst (write_batch rejects (coll w) b0 data0
                                (utcnow (clock_reads w)));
                 fetch_calls := S (fetch_calls w);
                 clock_reads := S (clock_reads w) |} w' k b s data Hnd');
      [|done..].
    cbn [coll]. rewrite write_batch_store. by apply exec_unique.
Qed.
End StoredContent.

(** X22. What a run stores: on a collection with the unique index on
    [symbol], when the symbols are distinct, the batch size is positive
    and the run returns normally, the one document keyed by a symbol of
    chunk [k] holds as [data] what the [k]-th detail reply has for that
    symbol, or the empty record when the reply lacks it. *)
Theorem stored_content (get_modules : DetailEndpoint) (utcnow : Clock)
    (rejects : Rejects) (w w' : World) (symbols modules : list string)
    (batch_size : Z) (batches : list (list string)) (k : nat)
    (b : list string) (s : string) (data : gmap string Payload) :
  0 < batch_size →
  NoDup symbols →
  unique_index (coll w) →
  upsert_company_data get_modules utcnow rejects w symbols modules batch_size
  = (w', Ret tt) →
  chunked symbols batch_size = Ret batches →
  batches !! k = Some b → s ∈ b →
  get_modules (fetch_calls w + k)%nat b modules = Some data →
  ∃ d, docs_keyed s (coll w') = [d]
       ∧ d !! "data"%string = Some (VData (default (PDict ∅) (data !! s))).
Proof.
  intros Hbs Hnd Hu Hrun Hch Hk Hs Hdata.
  rewrite (upsert_company_data_chunks _ _ _ _ _ _ _ _ Hch) in Hrun.
  rewrite <- (chunked_concat _ _ _ Hbs Hch) in Hnd.
  destruct (run_content get_modules utcnow rejects modules batches
              w w' k b s data Hnd Hu Hrun Hk Hs Hdata) as (d & Hd & Hdata' & _).
  by exists d.
Qed.

Lemma stored_content_witness :
  NoDup ["A"; "B"; "C"]%string
  ∧ unique_index (coll fresh_world)
  ∧ ∃ d, docs_keyed "B"
           (coll (fst (upsert_company_data always_AC tick accept_all fresh_world
                         ["A"; "B"; "C"]%string [] 2))) = [d]
         ∧ d !! "data"%string
           = Some (VData (default (PDict ∅) (details_AC !! "B"%string))).
Proof.
  assert (Hnd : NoDup ["A"; "B"; "C"]%string).
  { repeat constructor; intros H;
      repeat (apply elem_of_cons in H as [H|H]; [done|]);
      by apply elem_of_nil in H. }
  split; [exact Hnd|]. split; [apply unique_index_empty|].
  apply (stored_content always_AC tick accept_all fresh_world
           (fst (upsert_company_data always_AC tick accept_all fresh_world
                   ["A"; "B"; "C"]%string [] 2))
           ["A"; "B"; "C"]%string [] 2 [["A"; "B"]; ["C"]]%string 0
           ["A"; "B"]%string "B"%string details_AC);
    [lia | exact Hnd | apply unique_index_empty | vm_compute; reflexivity
     | reflexivity | reflexivity | by right; left | reflexivity].
Defined.

(** ** Chunk failures *)



Section OutageFacts.
Variables (outage : StoreOutage) (get_modules : DetailEndpoint).
Variables (utcnow : Clock) (rejects : Rejects) (modules : list string).
Local Abbreviation orun :=
  (WithOutage.run_batches outage get_modules utcnow rejects modules).




End OutageFacts.

(** With a store that is never out of reach the run is the one of
    [upsert_company_data]. *)
Lemma no_outage_run get_modules utcnow rejects w symbols modules batch_size :
  WithOutage.upsert_company_data (λ _, false) get_modules utcnow rejects w
    symbols modules batch_size
  = upsert_company_data get_modules utcnow rejects w symbols modules batch_size.
Proof.
  unfold WithOutage.upsert_company_data, upsert_company_data.
  destruct (chunked symbols batch_size) as [batches| |]; [|done..].
  assert (Hrun : ∀ w,
    WithOutage.run_batches (λ _, false) get_modules utcnow rejects modules
      batches w
    = run_batches get_modules utcnow rejects modules batches w).
  { induction batches as [|b batches IH]; intros w0; [done|].
    cbn [WithOutage.run_batches run_batches].
    assert (Hone : WithOutage.upsert_batch (λ _, false) get_modules utcnow
                     rejects modules b w0
                   = upsert_batch get_modules utcnow rejects modules b w0).
    { unfold WithOutage.upsert_batch, upsert_batch.
      destruct (get_modules _ _ _); [|done].
      unfold WithOutage.write_batch, write_batch, WithOutage.bulk_write.
      by destruct (build_operations _ _ _). }
    rewrite Hone. destruct (upsert_batch _ _ _ _ _ _) as [w' [[]| |]];
      [apply IH|done..]. }
  by rewrite Hrun.
Qed.



(** X14. Refused operations stop the run after their chunk. If the store
    refuses [n + 1] operations of chunk [b], after the chunks [pre] went
    through, the run ends with a [BulkWriteError] counting them: the
    operations of [b] that the store accepted have been applied to what
    the earlier chunks left, and no later chunk is requested or
    written. *)
Theorem refused_operations_stop_run (get_modules : DetailEndpoint)
    (utcnow : Clock) (rejects : Rejects) (modules : list string) (w w1 : World)
    (symbols : list string) (batch_size : Z)
    (pre : list (list string)) (b : list string) (post : list (list string))
    (data : gmap string Payload) (n : nat) :
  chunked symbols batch_size = Ret (pre ++ b :: post) →
  run_batches get_modules utcnow rejects modules pre w = (w1, Ret tt) →
  get_modules (fetch_calls w1) b modules = Some data →
  length (filter (λ op, rejects op = true)
            (build_operations b data (utcnow (clock_reads w1)))) = S n →
  upsert_company_data get_modules utcnow rejects w symbols modules batch_size
  = ({| coll := foldl apply_update (coll w1)
                  (filter (λ op, rejects op = false)
                     (build_operations b data (utcnow (clock_reads w1))));
        fetch_calls := S (fetch_calls w1);
        clock_reads := S (clock_reads w1) |},
     Raise (BulkWriteError (S n))).
Proof.
  intros Hch Hpre Hdata Hn.
  rewrite (upsert_company_data_chunks _ _ _ _ _ _ _ _ Hch).
  rewrite run_batches_app, Hpre. cbn [run_batches].
  unfold upsert_batch. rewrite Hdata.
  set (t := utcnow (clock_reads w1)) in *.
  pose proof (write_batch_store rejects data t (coll w1) b) as Hst.
  pose proof (write_batch_outcome rejects data t (coll w1) b) as Hout.
  unfold build_operations in Hn. rewrite Hn in Hout.
  destruct (write_batch rejects (coll w1) b data t) as [c' r].
  cbn [fst snd] in Hst, Hout. subst c' r.
  unfold build_operations. by rewrite bulk_exec_unordered.
Qed.

Lemma refused_operations_stop_run_witness :
  chunked ["A"; "B"; "C"]%string 2 = Ret ([] ++ ["A"; "B"]%string :: [["C"]%string])
  ∧ length (filter (λ op, reject_A op = true)
              (build_operations ["A"; "B"]%string details_AC
                 (tick (clock_reads fresh_world)))) = 1%nat
  ∧ upsert_company_data always_AC tick reject_A fresh_world
      ["A"; "B"; "C"]%string [] 2
    = ({| coll := foldl apply_update (coll fresh_world)
                    (filter (λ op, reject_A op = false)
                       (build_operations ["A"; "B"]%string details_AC
                          (tick (clock_reads fresh_world))));
          fetch_calls := S (fetch_calls fresh_world);
          clock_reads := S (clock_reads fresh_world) |},
       Raise (BulkWriteError 1)).
Proof.
  split; [reflexivity|]. split; [reflexivity|].
  exact (refused_operations_stop_run always_AC tick reject_A [] fresh_world
           fresh_world ["A"; "B"; "C"]%string 2 [] ["A"; "B"]%string
           [["C"]%string] details_AC 0 eq_refl eq_refl eq_refl eq_refl).
Defined.
